(** * Sliding-window chunking of repository documents

    A shallow embedding of [src/processing/data_chunking.py]: the window
    splitter [sliding_window_chunk], the per-document driver
    [process_documents] and the flattening [Chunk.to_dict].

    Python values are modelled as the code uses them:
    - a [str] is a list of Unicode code points ([list N]);
    - offsets are unbounded integers ([Z]); the cursor of the splitter can
      become negative, and Python gives negative offsets a meaning of their
      own in [str.rfind] and in slicing, which is written out below;
    - a [dict] with string keys is a [gmap string value];
    - the [while] loop is a step function [loop_body] iterated with fuel. *)

From Stdlib Require Import ZArith Lia Ascii String.
From stdpp Require Import gmap strings list fin_maps.

Local Open Scope Z_scope.

(** ** Strings *)

Abbreviation str := (list N) (only parsing).

(** [len(text)] *)
Definition len (text : str) : Z := Z.of_nat (length text).

(** Code points of an ASCII literal, to write texts down. *)
Definition lit (s : string) : str := N_of_ascii <$> list_ascii_of_string s.

Definition LF : N := 10%N.

(** The code points for which [str.isspace] holds, which are the ones that
    [str.strip()] removes. *)
Definition is_space (c : N) : bool :=
  ((9 <=? c) && (c <=? 13) || (28 <=? c) && (c <=? 32)
   || (c =? 133) || (c =? 160) || (c =? 5760)
   || (8192 <=? c) && (c <=? 8202)
   || (c =? 8232) || (c =? 8233) || (c =? 8239) || (c =? 8287)
   || (c =? 12288))%N.

(** Truth value of a [str]: non-empty. *)
Definition truthy (text : str) : bool :=
  match text with [] => false | _ :: _ => true end.

Fixpoint lstrip (text : str) : str :=
  match text with
  | c :: rest => if is_space c then lstrip rest else text
  | [] => []
  end.

Definition rstrip (text : str) : str := reverse (lstrip (reverse text)).

(** [text.strip()] *)
Definition strip (text : str) : str := rstrip (lstrip text).

(** Offsets of a slice [text[start:stop]]: a negative offset counts from the
    end, and both offsets are clamped to [0 .. len]. *)
Definition clamp_index (n i : Z) : Z :=
  if i <? 0 then Z.max (i + n) 0 else Z.min i n.

(** [text[start:stop]] *)
Definition slice (text : str) (start stop : Z) : str :=
  let s := clamp_index (len text) start in
  let e := clamp_index (len text) stop in
  take (Z.to_nat (e - s)) (drop (Z.to_nat s) text).

(** Offsets of [text.rfind(sub, start, end)]: [end] is clamped like a slice
    offset, a negative [start] counts from the end and is clamped at 0. *)
Definition adjust_start (n i : Z) : Z :=
  if i <? 0 then Z.max (i + n) 0 else i.

Definition adjust_end (n i : Z) : Z :=
  if n <? i then n else if i <? 0 then Z.max (i + n) 0 else i.

(** [sub] occurs in [text] at offset [i] (for [0 <= i]). *)
Fixpoint starts_with (sub text : str) : bool :=
  match sub, text with
  | [], _ => true
  | _ :: _, [] => false
  | a :: sub', b :: text' => (a =? b)%N && starts_with sub' text'
  end.

Definition match_at (text sub : str) (i : Z) : bool :=
  starts_with sub (drop (Z.to_nat i) text).

(** Highest offset among [lo], ..., [lo + n - 1] at which [sub] occurs,
    or -1. *)
Fixpoint rfind_down (text sub : str) (lo : Z) (n : nat) : Z :=
  match n with
  | O => -1
  | S k =>
      if match_at text sub (lo + Z.of_nat k) then lo + Z.of_nat k
      else rfind_down text sub lo k
  end.

(** [text.rfind(sub, start, end)]: the highest offset [i] with
    [text[i:i+len(sub)] == sub] inside [text[start:end]], or -1. *)
Definition rfind (text sub : str) (start end_ : Z) : Z :=
  let e := adjust_end (len text) end_ in
  let s := adjust_start (len text) start in
  if e - s <? len sub then -1
  else rfind_down text sub s (Z.to_nat (e - s - len sub + 1)).

(** ** The window splitter *)

(** One entry of the list that [sliding_window_chunk] returns. *)
Record raw_chunk : Type := RawChunk {
  raw_content : str;
  raw_start_char : Z;
  raw_end_char : Z;
  raw_chunk_index : Z
}.

(** The variables that the loop updates. *)
Record loop_state : Type := LoopState {
  st_chunks : list raw_chunk;
  st_start : Z;
  st_chunk_index : Z
}.

Inductive exn : Type := ValueError | AttributeError.

Inductive outcome (A : Type) : Type :=
| Returned (a : A)
| Raised (e : exn)
| OutOfFuel.
Arguments Returned {A} a.
Arguments Raised {A} e.
Arguments OutOfFuel {A}.

Definition paragraph : str := [LF; LF].
Definition newline : str := [LF].
(** ['. '], ['? '], ['! '] *)
Definition terminators : list str := [[46; 32]; [63; 32]; [33; 32]]%N.

(** [break_point == -1 or break_point <= start] *)
Definition no_break (break_point start : Z) : bool :=
  (break_point =? -1) || (break_point <=? start).

(** The [for punct in ...] loop: the first terminator whose [rfind] is
    greater than [start] sets the break point and leaves the loop. *)
Fixpoint sentence_break (text : str) (start end_ : Z) (puncts : list str)
    (break_point : Z) : Z :=
  match puncts with
  | [] => break_point
  | punct :: rest =>
      let bp := rfind text punct start end_ in
      if start <? bp then bp + 1
      else sentence_break text start end_ rest break_point
  end.

Definition find_break_point (text : str) (start end_ : Z) : Z :=
  let break_point := rfind text paragraph start end_ in
  let break_point :=
    if no_break break_point start then rfind text newline start end_
    else break_point in
  if no_break break_point start
  then sentence_break text start end_ terminators break_point
  else break_point.

(** The value of [end] when the window is cut. *)
Definition window_end (text : str) (chunk_size start : Z) : Z :=
  let end_ := Z.min (start + chunk_size) (len text) in
  if end_ <? len text then
    let break_point := find_break_point text start end_ in
    if start <? break_point then break_point else end_
  else end_.

(** One pass through the body of the [while] loop. *)
Definition loop_body (text : str) (chunk_size overlap : Z) (st : loop_state)
    : loop_state :=
  let start := st_start st in
  let end_ := window_end text chunk_size start in
  let chunk_content := strip (slice text start end_) in
  let next_start := if end_ <? len text then end_ - overlap else len text in
  if truthy chunk_content then
    {| st_chunks :=
         st_chunks st ++ [RawChunk chunk_content start end_ (st_chunk_index st)];
       st_start := next_start;
       st_chunk_index := st_chunk_index st + 1 |}
  else
    {| st_chunks := st_chunks st;
       st_start := next_start;
       st_chunk_index := st_chunk_index st |}.

(** [while start < text_length: ...], at most [fuel] passes. *)
Fixpoint loop (fuel : nat) (text : str) (chunk_size overlap : Z)
    (st : loop_state) : option (list raw_chunk) :=
  if st_start st <? len text then
    match fuel with
    | O => None
    | S fuel' => loop fuel' text chunk_size overlap
                   (loop_body text chunk_size overlap st)
    end
  else Some (st_chunks st).

Definition initial : loop_state :=
  {| st_chunks := []; st_start := 0; st_chunk_index := 0 |}.

Definition sliding_window_chunk (fuel : nat) (text : str)
    (chunk_size overlap : Z) : outcome (list raw_chunk) :=
  if chunk_size <=? 0 then Raised ValueError
  else if (overlap <? 0) || (chunk_size <=? overlap) then Raised ValueError
  else if negb (truthy text) || negb (truthy (strip text)) then Returned []
  else match loop fuel text chunk_size overlap initial with
       | Some chunks => Returned chunks
       | None => OutOfFuel
       end.

(** The state after [n] passes, for as long as the loop condition holds. *)
Fixpoint run (n : nat) (text : str) (chunk_size overlap : Z)
    (st : loop_state) : loop_state :=
  match n with
  | O => st
  | S n' =>
      if st_start st <? len text
      then run n' text chunk_size overlap (loop_body text chunk_size overlap st)
      else st
  end.

(** ** Documents and chunks *)

(** The values a document field can hold. *)
#[local] Unset Elimination Schemes.
Inductive value : Type :=
| VNone
| VBool (b : bool)
| VInt (z : Z)
| VStr (s : str)
| VList (l : list value)
| VDict (d : gmap string value).
#[local] Set Elimination Schemes.

(** Truth value of a [dict]: non-empty. *)
Definition dict_truthy (d : gmap string value) : bool :=
  negb (bool_decide (size d = 0%nat)).

Definition value_truthy (v : value) : bool :=
  match v with
  | VNone => false
  | VBool b => b
  | VInt z => negb (z =? 0)
  | VStr s => truthy s
  | VList l => match l with [] => false | _ :: _ => true end
  | VDict d => dict_truthy d
  end.

Record Chunk : Type := mkChunk {
  content : str;
  start_char : Z;
  end_char : Z;
  chunk_index : Z;
  filename : value;
  title : value;
  metadata : option (gmap string value)
}.

(** [k not in ('content', 'filename', 'title')] *)
Definition is_frontmatter (k : string) : bool :=
  negb (String.eqb k "content" || String.eqb k "filename" || String.eqb k "title").

(** The chunks of one document: one pass through the body of the
    [for doc in documents] loop. *)
Definition document_chunks (fuel : nat) (doc : gmap string value)
    (chunk_size overlap : Z) : outcome (list Chunk) :=
  let content := default (VStr []) (doc !! "content") in
  if negb (value_truthy content) then Returned []
  else
    let filename := default (VStr (lit "unknown")) (doc !! "filename") in
    let title := default VNone (doc !! "title") in
    let metadata := filter (λ kv, is_frontmatter kv.1 = true) doc in
    let raw_chunks :=
      match content with
      | VStr text => sliding_window_chunk fuel text chunk_size overlap
      | _ =>
          (* the parameters are checked first; then [text.strip()] fails *)
          if (chunk_size <=? 0) || (overlap <? 0) || (chunk_size <=? overlap)
          then Raised ValueError else Raised AttributeError
      end in
    match raw_chunks with
    | Returned raw_chunks =>
        Returned
          ((λ raw_chunk,
             {| content := raw_content raw_chunk;
                start_char := raw_start_char raw_chunk;
                end_char := raw_end_char raw_chunk;
                chunk_index := raw_chunk_index raw_chunk;
                filename := filename;
                title := title;
                metadata := if dict_truthy metadata then Some metadata
                            else None |}) <$> raw_chunks)
    | Raised e => Raised e
    | OutOfFuel => OutOfFuel
    end.

(** The [for doc in documents] loop, [all_chunks] being the accumulator. *)
Fixpoint process_loop (fuel : nat) (documents : list (gmap string value))
    (chunk_size overlap : Z) (all_chunks : list Chunk)
    : outcome (list Chunk) :=
  match documents with
  | [] => Returned all_chunks
  | doc :: rest =>
      match document_chunks fuel doc chunk_size overlap with
      | Returned chunks =>
          process_loop fuel rest chunk_size overlap (all_chunks ++ chunks)
      | Raised e => Raised e
      | OutOfFuel => OutOfFuel
      end
  end.

Definition process_documents (fuel : nat) (documents : list (gmap string value))
    (chunk_size overlap : Z) : outcome (list Chunk) :=
  process_loop fuel documents chunk_size overlap [].

(** [dataclasses.asdict]: one entry per field. *)
Definition asdict (c : Chunk) : gmap string value :=
  <["content" := VStr (content c)]>
  (<["start_char" := VInt (start_char c)]>
  (<["end_char" := VInt (end_char c)]>
  (<["chunk_index" := VInt (chunk_index c)]>
  (<["filename" := filename c]>
  (<["title" := title c]>
  (<["metadata" := match metadata c with
                   | Some d => VDict d
                   | None => VNone
                   end]> ∅)))))).

(** [Chunk.to_dict]: [result.update(d)] lets the entries of [d] win. *)
Definition to_dict (c : Chunk) : gmap string value :=
  let result := asdict c in
  match metadata c with
  | Some d =>
      if dict_truthy d then delete "metadata" (d ∪ result) else result
  | None => result
  end.

Definition chunks_to_dicts (chunks : list Chunk) : list (gmap string value) :=
  to_dict <$> chunks.

(** ** The address of the archive

    [read_repo_data] of [src/ingestion/data_prepration.py] downloads an
    archive and reads the files in it. What is modelled here is how it
    gets the address to download from: from [urlparse(repo_url).path],
    which is taken as given, to the string handed to [requests.get]. *)

Definition SLASH : N := 47%N.

Fixpoint lstrip_char (ch : N) (text : str) : str :=
  match text with
  | c :: rest => if (c =? ch)%N then lstrip_char ch rest else text
  | [] => []
  end.

(** [text.strip(ch)] for a single character [ch] *)
Definition strip_char (ch : N) (text : str) : str :=
  reverse (lstrip_char ch (reverse (lstrip_char ch text))).

(** [text.split(sep)] for a single character [sep]: the parts between the
    occurrences of [sep], empty parts included. *)
Fixpoint split (sep : N) (text : str) : list str :=
  match text with
  | [] => [[]]
  | c :: rest =>
      if (c =? sep)%N then [] :: split sep rest
      else match split sep rest with
           | part :: parts => (c :: part) :: parts
           | [] => [[c]]
           end
  end.

(** [f'{prefix}/{repo_owner}/{repo_name}/zip/refs/heads/main'] *)
Definition codeload_url (repo_owner repo_name : str) : str :=
  lit "https://codeload.github.com" ++ [SLASH] ++ repo_owner ++ [SLASH]
  ++ repo_name ++ lit "/zip/refs/heads/main".

(** The address that [read_repo_data] requests, or the error it raises
    before requesting anything, for the path of [repo_url]. *)
Definition read_repo_data_url (path : str) : outcome str :=
  let path_parts := split SLASH (strip_char SLASH path) in
  if (length path_parts <? 2)%nat then Raised ValueError
  else
    let repo_owner := default [] (path_parts !! 0%nat) in
    let repo_name := default [] (path_parts !! 1%nat) in
    Returned (codeload_url repo_owner repo_name).

(** ** Properties of parameters, states and results *)

Definition valid_parameters (chunk_size overlap : Z) : Prop :=
  0 < chunk_size ∧ 0 ≤ overlap < chunk_size.

(** Where the cursor can be between two passes. *)
Definition cursor_ok (text : str) (chunk_size overlap : Z) (st : loop_state)
    : Prop :=
  - overlap ≤ st_start st ≤ len text
  ∧ (st_start st < 0 → chunk_size < len text).

(** What holds of a recorded window. *)
Definition well_formed (text : str) (chunk_size : Z) (ch : raw_chunk) : Prop :=
  0 ≤ raw_start_char ch < raw_end_char ch
  ∧ raw_end_char ch ≤ len text
  ∧ raw_end_char ch - raw_start_char ch ≤ chunk_size
  ∧ raw_content ch = strip (slice text (raw_start_char ch) (raw_end_char ch))
  ∧ raw_content ch ≠ [].

(** The entry at position [i] carries the index [i]. *)
Definition indexed (chunks : list raw_chunk) : Prop :=
  ∀ (i : nat) ch, chunks !! i = Some ch → raw_chunk_index ch = Z.of_nat i.

(** The next index to hand out is the number of windows recorded. *)
Definition numbered (st : loop_state) : Prop :=
  st_chunk_index st = Z.of_nat (length (st_chunks st))
  ∧ indexed (st_chunks st).

(** Offset [i] lies in the range of a recorded window. *)
Definition covered (chunks : list raw_chunk) (i : Z) : Prop :=
  ∃ ch, ch ∈ chunks ∧ raw_start_char ch ≤ i < raw_end_char ch.

(** The cursor moves forward at every pass of the loop. *)
Definition advances (text : str) (chunk_size overlap : Z) : Prop :=
  ∀ n, st_start (run n text chunk_size overlap initial) < len text →
       st_start (run n text chunk_size overlap initial)
       < st_start (loop_body text chunk_size overlap
                     (run n text chunk_size overlap initial)).

(** The property as the specification words it: the call returns a
    non-empty list, and no offset of the text is outside all its ranges. *)
Definition covers_all (text : str) (chunk_size overlap : Z) : Prop :=
  ∃ fuel chunks,
    sliding_window_chunk fuel text chunk_size overlap = Returned chunks
    ∧ chunks ≠ []
    ∧ ∀ i, 0 ≤ i < len text → covered chunks i.

(** Every non-blank character before the cursor is in a recorded window. *)
Definition covered_so_far (text : str) (st : loop_state) : Prop :=
  ∀ (i : nat) c,
    Z.of_nat i < st_start st → text !! i = Some c → is_space c = false →
    covered (st_chunks st) (Z.of_nat i).

(** [sub] occurs at offset [p] strictly after [start] and ends inside the
    window that ends at [end_]. *)
Definition occurs_after (text sub : str) (start end_ p : Z) : Prop :=
  start < p ∧ p + len sub ≤ end_ ∧ match_at text sub p = true.

(** A document without text: no [content] field, or one that is empty or
    all blank. *)
Definition blank (doc : gmap string value) : Prop :=
  doc !! "content" = None
  ∨ ∃ text, doc !! "content" = Some (VStr text) ∧ strip text = [].

(** No [content] field, or an empty one. *)
Definition no_content (doc : gmap string value) : Prop :=
  doc !! "content" = None ∨ doc !! "content" = Some (VStr []).

(** Processing the document alone returns no chunk. *)
Definition skipped (doc : gmap string value) (chunk_size overlap : Z) : Prop :=
  ∀ fuel, process_documents fuel [doc] chunk_size overlap = Returned [].

(** The field [k] of the document, unless it is one of the three that the
    chunk holds itself. *)
Definition remaining (doc : gmap string value) (k : string) : option value :=
  if decide (k = "content" ∨ k = "filename" ∨ k = "title") then None
  else doc !! k.

(** The chunk has the file name, the title and the other fields of the
    document. *)
Definition carries (doc : gmap string value) (ch : Chunk) : Prop :=
  filename ch = default (VStr (lit "unknown")) (doc !! "filename")
  ∧ title ch = default VNone (doc !! "title")
  ∧ match metadata ch with
    | Some d => d ≠ ∅ ∧ ∀ k, d !! k = remaining doc k
    | None => ∀ k, remaining doc k = None
    end.

(** ** Sample inputs *)

(** The text of the specification's paragraph scenario, split with
    [chunk_size = 20] and [overlap = 5]. *)
Definition scenario : str :=
  lit "Paragraph one." ++ [LF; LF]
  ++ lit "Paragraph two is longer and continues for a while.".

(** A text without line breaks or sentence ends. *)
Definition sample : str :=
  lit "hello world, this is long enough text to split maybe".

(** A full stop at offset 5 and an exclamation mark at offset 15. *)
Definition priority_text : str := lit "aaaaa. bbbbbbbb! cccccccccc".

(** A document whose text is three blanks. *)
Definition whitespace_document : gmap string value :=
  {[ "content" := VStr (lit "   ") ]}.

(** The document of the specification's metadata scenario. *)
Definition tagged_document : gmap string value :=
  <["content" :=
      VStr (lit "hello world, this is long enough text to split maybe")]>
  (<["filename" := VStr (lit "a.md")]>
  (<["title" := VStr (lit "T")]>
  (<["tags" := VList [VStr (lit "x")]]> ∅))).

(** A chunk without metadata, and one whose metadata has a [metadata]
    entry of its own. *)
Definition plain_chunk : Chunk :=
  mkChunk (lit "x") 0 1 0 (VStr (lit "a.md")) VNone None.

Definition nested_chunk : Chunk :=
  mkChunk (lit "x") 0 1 0 (VStr (lit "a.md")) VNone
    (Some {[ "metadata" := VInt 1 ]}).

(** A document with a field named like a field of the chunk. *)
Definition numbered_document : gmap string value :=
  <["content" := VStr (lit "some text")]>
  (<["chunk_index" := VInt 7]> (<["author" := VStr (lit "me")]> ∅)).

(** A document without a [content] field. *)
Definition empty_document : gmap string value :=
  {[ "filename" := VStr (lit "b.md") ]}.

(** Twenty-six letters and nothing else. *)
Definition alphabet : str := lit "abcdefghijklmnopqrstuvwxyz".

(** Two words eight blanks apart. *)
Definition gapped : str := lit "a        b".

(** A line break right after the first character. *)
Definition short_first_line : str := lit "a" ++ [LF] ++ lit "bbbbbbbbbbbbbbbbbbbb".

(** ** Further notions *)

(** A text without any whitespace character. *)
Definition solid (text : str) : Prop := Forall (λ c, is_space c = false) text.

(** Each window ends before the later ones begin. *)
Definition disjoint (chunks : list raw_chunk) : Prop :=
  ∀ (i j : nat) a b,
    (i < j)%nat → chunks !! i = Some a → chunks !! j = Some b →
    raw_end_char a ≤ raw_start_char b.

(** The [content] field of the document is truthy: the document is not
    passed over. *)
Definition has_text (doc : gmap string value) : bool :=
  value_truthy (default (VStr []) (doc !! "content")).

(** The windows of a text cut at every [chunk_size - overlap] characters:
    window [i] starts at [i * (chunk_size - overlap)], spans [chunk_size]
    characters or stops at the end of the text, and holds that slice as it
    is. *)
Definition hard_cuts (text : str) (chunk_size overlap : Z)
    (chunks : list raw_chunk) : Prop :=
  ∀ (i : nat) ch, chunks !! i = Some ch →
    raw_start_char ch = Z.of_nat i * (chunk_size - overlap)
    ∧ raw_end_char ch = Z.min (raw_start_char ch + chunk_size) (len text)
    ∧ raw_content ch = slice text (raw_start_char ch) (raw_end_char ch).

(** The chunk lies in [text]: its offsets are offsets of [text] at most
    [chunk_size] apart, and its content is the trimmed slice between
    them. *)
Definition located (text : str) (chunk_size : Z) (ch : Chunk) : Prop :=
  0 ≤ start_char ch < end_char ch
  ∧ end_char ch ≤ len text
  ∧ end_char ch - start_char ch ≤ chunk_size
  ∧ content ch = strip (slice text (start_char ch) (end_char ch))
  ∧ content ch ≠ [].

(** The six fields of a chunk other than [metadata], by name. *)
Definition field (ch : Chunk) (k : string) : option value :=
  if decide (k = "content") then Some (VStr (content ch))
  else if decide (k = "start_char") then Some (VInt (start_char ch))
  else if decide (k = "end_char") then Some (VInt (end_char ch))
  else if decide (k = "chunk_index") then Some (VInt (chunk_index ch))
  else if decide (k = "filename") then Some (filename ch)
  else if decide (k = "title") then Some (title ch)
  else None.

(** The dictionary holds the file name and the title of the document, a
    text, and every other field of the document but one named
    [metadata]. *)
Definition flattened (doc d : gmap string value) : Prop :=
  d !! "filename" = Some (default (VStr (lit "unknown")) (doc !! "filename"))
  ∧ d !! "title" = Some (default VNone (doc !! "title"))
  ∧ (∃ text, d !! "content" = Some (VStr text) ∧ text ≠ [])
  ∧ ∀ k v, remaining doc k = Some v → k ≠ "metadata" → d !! k = Some v.

(** A window shares at most [overlap] characters with a later one. *)
Definition overlap_bounded (overlap : Z) (chunks : list raw_chunk) : Prop :=
  ∀ (i j : nat) a b,
    (i < j)%nat → chunks !! i = Some a → chunks !! j = Some b →
    raw_end_char a - overlap ≤ raw_start_char b.

(** ** Facts about the string operations *)

Section strings.
Implicit Types (text sub : str) (c : N).

Lemma len_nonneg text : 0 ≤ len text.
Proof. unfold len. lia. Qed.

Lemma lstrip_length text : (length (lstrip text) ≤ length text)%nat.
Proof.
  induction text as [|c rest IH]; simpl; [lia|].
  destruct (is_space c); simpl; lia.
Qed.

Lemma lstrip_nil text : lstrip text = [] → Forall (λ c, is_space c = true) text.
Proof.
  induction text as [|c rest IH]; simpl; [constructor|].
  destruct (is_space c) eqn:Hc; [|discriminate].
  intros H. constructor; [done|by apply IH].
Qed.

Lemma Forall_space_lstrip text :
  Forall (λ c, is_space c = true) text → lstrip text = [].
Proof.
  induction 1 as [|c rest Hc _ IH]; simpl; [done|]. by rewrite Hc.
Qed.

(** What [lstrip] leaves is all of the text or nothing of it, as far as
    being blank goes. *)
Lemma lstrip_blank text :
  Forall (λ c, is_space c = true) (lstrip text) →
  Forall (λ c, is_space c = true) text.
Proof.
  induction text as [|c rest IH]; simpl; [done|].
  destruct (is_space c) eqn:Hc; [|done].
  intros H. constructor; [done|by apply IH].
Qed.

Lemma strip_length text : (length (strip text) ≤ length text)%nat.
Proof.
  unfold strip, rstrip. rewrite length_reverse.
  etrans; [apply lstrip_length|]. rewrite length_reverse. apply lstrip_length.
Qed.

Lemma strip_nil text :
  strip text = [] ↔ Forall (λ c, is_space c = true) text.
Proof.
  unfold strip, rstrip. split.
  - intros H. apply lstrip_blank.
    apply (f_equal reverse) in H. rewrite reverse_involutive, reverse_nil in H.
    apply lstrip_nil in H. by apply Forall_reverse.
  - intros H. rewrite (Forall_space_lstrip text H). done.
Qed.

Lemma truthy_false text : truthy text = false ↔ text = [].
Proof. by destruct text. Qed.

Lemma truthy_true text : truthy text = true ↔ text ≠ [].
Proof. by destruct text. Qed.

(** A slice between offsets of the text is the text between them. *)
Lemma slice_inside text s e :
  0 ≤ s → 0 ≤ e ≤ len text →
  slice text s e = take (Z.to_nat (e - s)) (drop (Z.to_nat s) text).
Proof.
  intros Hs He. unfold slice, clamp_index.
  destruct (Z.ltb_spec s 0); [lia|]. destruct (Z.ltb_spec e 0); [lia|].
  rewrite (Z.min_l e) by lia.
  destruct (Z.le_gt_cases s (len text)).
  - by rewrite Z.min_l by lia.
  - rewrite Z.min_r by lia.
    replace (Z.to_nat (e - len text)) with 0%nat by lia.
    by replace (Z.to_nat (e - s)) with 0%nat by lia.
Qed.

Lemma slice_lookup text s e i c :
  0 ≤ s → s ≤ i < e → e ≤ len text →
  text !! Z.to_nat i = Some c → c ∈ slice text s e.
Proof.
  intros Hs Hi He Hc. rewrite slice_inside by lia.
  apply list_elem_of_lookup. exists (Z.to_nat (i - s)).
  rewrite lookup_take_lt by lia. rewrite lookup_drop.
  by replace (Z.to_nat s + Z.to_nat (i - s))%nat with (Z.to_nat i) by lia.
Qed.

Lemma slice_nonempty text s e :
  slice text s e ≠ [] →
  clamp_index (len text) s < clamp_index (len text) e.
Proof.
  unfold slice. intros H.
  destruct (Z.lt_ge_cases (clamp_index (len text) s)
              (clamp_index (len text) e)) as [|Hle]; [done|].
  by replace (Z.to_nat _) with 0%nat in H by lia.
Qed.

Lemma rfind_down_range text sub lo n :
  rfind_down text sub lo n = -1
  ∨ (lo ≤ rfind_down text sub lo n < lo + Z.of_nat n
     ∧ match_at text sub (rfind_down text sub lo n) = true).
Proof.
  induction n as [|k IH]; simpl; [by left|].
  destruct (match_at text sub (lo + Z.of_nat k)) eqn:Hm.
  - right. split; [lia|done].
  - destruct IH as [IH|[IH1 IH2]]; [by left|right]. split; [lia|done].
Qed.

Lemma rfind_down_max text sub lo n j :
  0 ≤ lo → lo ≤ j < lo + Z.of_nat n → match_at text sub j = true →
  j ≤ rfind_down text sub lo n.
Proof.
  intros Hlo. induction n as [|k IH]; simpl; [lia|].
  intros Hj Hm. destruct (match_at text sub (lo + Z.of_nat k)) eqn:Hk.
  - lia.
  - destruct (decide (j = lo + Z.of_nat k)) as [->|]; [congruence|].
    apply IH; [lia|done].
Qed.

Lemma adjust_start_nonneg n i : 0 ≤ adjust_start n i.
Proof. unfold adjust_start. destruct (Z.ltb_spec i 0); lia. Qed.

(** [rfind] answers -1 or an offset of the text. *)
Lemma rfind_lower text sub start end_ : -1 ≤ rfind text sub start end_.
Proof.
  unfold rfind. pose proof (adjust_start_nonneg (len text) start).
  case_match; [lia|].
  destruct (rfind_down_range text sub (adjust_start (len text) start)
    (Z.to_nat (adjust_end (len text) end_ - adjust_start (len text) start
               - len sub + 1))) as [->|[? _]]; lia.
Qed.

(** An occurrence that [rfind] reports lies inside the searched range and
    is an occurrence. *)
Lemma rfind_found text sub start end_ :
  0 ≤ end_ ≤ len text → rfind text sub start end_ ≠ -1 →
  adjust_start (len text) start ≤ rfind text sub start end_
  ∧ rfind text sub start end_ + len sub ≤ end_
  ∧ match_at text sub (rfind text sub start end_) = true.
Proof.
  intros He. unfold rfind.
  replace (adjust_end (len text) end_) with end_; last first.
  { unfold adjust_end. destruct (Z.ltb_spec (len text) end_); [lia|].
    destruct (Z.ltb_spec end_ 0); lia. }
  destruct (Z.ltb_spec (end_ - adjust_start (len text) start) (len sub));
    [done|].
  intros Hr.
  destruct (rfind_down_range text sub (adjust_start (len text) start)
    (Z.to_nat (end_ - adjust_start (len text) start - len sub + 1)))
    as [?|[? ?]]; [done|].
  split_and!; [lia|lia|done].
Qed.

(** [rfind] reports the last occurrence inside the searched range. *)
Lemma rfind_max text sub start end_ j :
  0 ≤ start → 0 ≤ end_ ≤ len text →
  start ≤ j → j + len sub ≤ end_ → match_at text sub j = true →
  j ≤ rfind text sub start end_.
Proof.
  intros Hs He Hj Hje Hm. unfold rfind.
  replace (adjust_end (len text) end_) with end_; last first.
  { unfold adjust_end. destruct (Z.ltb_spec (len text) end_); [lia|].
    destruct (Z.ltb_spec end_ 0); lia. }
  replace (adjust_start (len text) start) with start; last first.
  { unfold adjust_start. destruct (Z.ltb_spec start 0); lia. }
  destruct (Z.ltb_spec (end_ - start) (len sub)); [lia|].
  apply rfind_down_max; [done|lia|done].
Qed.
(** With a negative [start] that points behind [end], nothing is found. *)
Lemma rfind_empty_range text sub start end_ :
  0 ≤ end_ ≤ len text → end_ ≤ adjust_start (len text) start →
  0 < len sub → rfind text sub start end_ = -1.
Proof.
  intros He Hs Hsub. unfold rfind.
  replace (adjust_end (len text) end_) with end_; last first.
  { unfold adjust_end. destruct (Z.ltb_spec (len text) end_); [lia|].
    destruct (Z.ltb_spec end_ 0); lia. }
  destruct (Z.ltb_spec (end_ - adjust_start (len text) start) (len sub));
    [done|lia].
Qed.
End strings.

(** ** The loop, pass by pass *)

Section passes.
Variables (text : str) (chunk_size overlap : Z).

Lemma run_done n st :
  len text ≤ st_start st → run n text chunk_size overlap st = st.
Proof.
  intros H. destruct n as [|n]; simpl; [done|].
  destruct (Z.ltb_spec (st_start st) (len text)); [lia|done].
Qed.

Lemma run_add n m st :
  run (n + m) text chunk_size overlap st
  = run m text chunk_size overlap (run n text chunk_size overlap st).
Proof.
  revert st. induction n as [|n IH]; intros st; simpl; [done|].
  destruct (Z.ltb_spec (st_start st) (len text)); [apply IH|].
  by rewrite run_done.
Qed.

(** The state after one more pass. *)
Lemma run_succ n st :
  run (S n) text chunk_size overlap st
  = let st' := run n text chunk_size overlap st in
    if st_start st' <? len text then loop_body text chunk_size overlap st'
    else st'.
Proof.
  replace (S n) with (n + 1)%nat by lia. rewrite run_add. simpl.
  by destruct (_ <? _).
Qed.

(** What the loop returns is the list of the state at which it stops. *)
Lemma loop_run fuel st chunks :
  loop fuel text chunk_size overlap st = Some chunks →
  chunks = st_chunks (run fuel text chunk_size overlap st)
  ∧ len text ≤ st_start (run fuel text chunk_size overlap st).
Proof.
  revert st. induction fuel as [|fuel IH]; intros st; simpl;
    destruct (Z.ltb_spec (st_start st) (len text)); try done.
  - intros [= <-]. split; [done|lia].
  - apply IH.
  - intros [= <-]. split; [done|lia].
Qed.

Lemma run_loop fuel st :
  len text ≤ st_start (run fuel text chunk_size overlap st) →
  loop fuel text chunk_size overlap st
  = Some (st_chunks (run fuel text chunk_size overlap st)).
Proof.
  revert st. induction fuel as [|fuel IH]; intros st; simpl;
    destruct (Z.ltb_spec (st_start st) (len text)); try done.
  - lia.
  - apply IH.
Qed.

(** A property that holds at the start and that every pass keeps holds
    after any number of passes. *)
Lemma run_invariant (P : loop_state → Prop) st :
  P st →
  (∀ st', P st' → st_start st' < len text →
          P (loop_body text chunk_size overlap st')) →
  ∀ n, P (run n text chunk_size overlap st).
Proof.
  intros H0 Hstep n. induction n as [|n IH]; [done|].
  rewrite run_succ. simpl.
  destruct (Z.ltb_spec (st_start (run n text chunk_size overlap st))
              (len text)); auto.
Qed.

(** The list only grows. *)
Lemma loop_body_chunks st :
  st_chunks (loop_body text chunk_size overlap st) = st_chunks st
  ∨ st_chunks (loop_body text chunk_size overlap st)
    = st_chunks st
        ++ [RawChunk
              (strip (slice text (st_start st)
                        (window_end text chunk_size (st_start st))))
              (st_start st) (window_end text chunk_size (st_start st))
              (st_chunk_index st)]
      ∧ truthy (strip (slice text (st_start st)
                         (window_end text chunk_size (st_start st)))) = true.
Proof.
  unfold loop_body. destruct (truthy _) eqn:E; simpl; [by right|by left].
Qed.

Lemma loop_body_start st :
  st_start (loop_body text chunk_size overlap st)
  = if window_end text chunk_size (st_start st) <? len text
    then window_end text chunk_size (st_start st) - overlap
    else len text.
Proof. unfold loop_body. by destruct (truthy _). Qed.
End passes.

(** ** Where a window ends *)

Section window.
Variables (text : str).

(** The [for] loop either leaves the break point as it was, when no
    terminator is reported after [start], or puts it one past the report
    for the first terminator that has one. *)
Lemma sentence_break_cases start end_ puncts break_point :
  (sentence_break text start end_ puncts break_point = break_point
   ∧ Forall (λ punct, rfind text punct start end_ ≤ start) puncts)
  ∨ (∃ before punct after,
        puncts = before ++ punct :: after
        ∧ Forall (λ p, rfind text p start end_ ≤ start) before
        ∧ start < rfind text punct start end_
        ∧ sentence_break text start end_ puncts break_point
          = rfind text punct start end_ + 1).
Proof.
  induction puncts as [|punct rest IH]; simpl; [by left|].
  destruct (Z.ltb_spec start (rfind text punct start end_)) as [Hlt|Hge].
  - right. exists [], punct, rest. by split_and!.
  - destruct IH as [[-> Hall]|(before & p & after & -> & Hall & Hp & ->)].
    + left. split; [done|]. by constructor.
    + right. exists (punct :: before), p, after.
      split_and!; [done|by constructor|done|done].
Qed.

Lemma terminators_length punct : punct ∈ terminators → len punct = 2.
Proof.
  unfold terminators. rewrite !elem_of_cons, elem_of_nil.
  intros [->|[->|[->|[]]]]; done.
Qed.

Lemma no_break_true break_point start :
  no_break break_point start = true ↔ break_point = -1 ∨ break_point ≤ start.
Proof.
  unfold no_break. rewrite orb_true_iff, Z.eqb_eq, Z.leb_le. done.
Qed.

Lemma no_break_false break_point start :
  no_break break_point start = false ↔ break_point ≠ -1 ∧ start < break_point.
Proof.
  unfold no_break. rewrite orb_false_iff, Z.eqb_neq, Z.leb_gt. done.
Qed.

(** The sentence search, entered without a break point after [start],
    leaves one after [start] only between 0 and the naive end. *)
Lemma sentence_break_bounds start end_ break_point :
  0 ≤ end_ ≤ len text →
  break_point = -1 ∨ break_point ≤ start →
  start < sentence_break text start end_ terminators break_point →
  0 ≤ sentence_break text start end_ terminators break_point ≤ end_.
Proof.
  intros He Hbp.
  destruct (sentence_break_cases start end_ terminators break_point)
    as [[-> Hall]|(before & p & after & Hsplit & _ & Hp & ->)].
  - apply Forall_cons_1 in Hall as [Hfirst _].
    pose proof (rfind_lower text [46%N; 32%N] start end_). lia.
  - intros _.
    assert (Hin : p ∈ terminators).
    { rewrite Hsplit. apply elem_of_app. right. left. }
    apply terminators_length in Hin.
    pose proof (rfind_lower text p start end_).
    destruct (decide (rfind text p start end_ = -1)) as [->|Hne]; [lia|].
    destruct (rfind_found text p start end_ He Hne) as (? & ? & _). lia.
Qed.

(** A break point after [start] lies between 0 and the naive end. *)
Lemma find_break_point_bounds start end_ :
  0 ≤ end_ ≤ len text →
  start < find_break_point text start end_ →
  0 ≤ find_break_point text start end_ ≤ end_.
Proof.
  intros He. unfold find_break_point.
  pose proof (adjust_start_nonneg (len text) start) as Hadj.
  destruct (no_break (rfind text paragraph start end_) start) eqn:N1.
  - destruct (no_break (rfind text newline start end_) start) eqn:N2.
    + apply sentence_break_bounds; [done|]. by apply no_break_true.
    + apply no_break_false in N2 as [N2 _]. intros _.
      destruct (rfind_found text newline start end_ He N2) as (? & ? & _).
      change (len newline) with 1 in *. lia.
  - rewrite N1. apply no_break_false in N1 as [N1 _]. intros _.
    destruct (rfind_found text paragraph start end_ He N1) as (? & ? & _).
    change (len paragraph) with 2 in *. lia.
Qed.

(** The window never reaches past the naive end, nor before the text. *)
Lemma window_end_bounds chunk_size start :
  0 ≤ start + chunk_size → start < len text →
  0 ≤ window_end text chunk_size start
    ≤ Z.min (start + chunk_size) (len text).
Proof.
  intros Hc Hs. unfold window_end.
  pose proof (len_nonneg text).
  destruct (Z.ltb_spec (Z.min (start + chunk_size) (len text)) (len text));
    [|lia].
  destruct (Z.ltb_spec start
    (find_break_point text start (Z.min (start + chunk_size) (len text))))
    as [Hbp|]; [|lia].
  apply find_break_point_bounds in Hbp; lia.
Qed.

(** From a cursor inside the text the window is not empty. *)
Lemma window_end_after chunk_size start :
  0 < chunk_size → start < len text →
  start < window_end text chunk_size start.
Proof.
  intros Hc Hs. unfold window_end.
  destruct (Z.ltb_spec (Z.min (start + chunk_size) (len text)) (len text));
    [|lia].
  destruct (Z.ltb_spec start
    (find_break_point text start (Z.min (start + chunk_size) (len text))));
    lia.
Qed.

(** The window stops before the end of the text only when the naive end
    does. *)
Lemma window_end_short chunk_size start :
  window_end text chunk_size start < len text →
  start + chunk_size < len text.
Proof.
  unfold window_end.
  destruct (Z.ltb_spec (Z.min (start + chunk_size) (len text)) (len text));
    lia.
Qed.

(** A negative cursor selects nothing: Python counts it from the end of
    the text, which is behind the end of the window. *)
Lemma slice_negative_cursor chunk_size start :
  start < 0 → 0 ≤ start + chunk_size → chunk_size < len text →
  slice text start (window_end text chunk_size start) = [].
Proof.
  intros Hneg Hc Hlen.
  pose proof (window_end_bounds chunk_size start Hc ltac:(lia)) as Hw.
  unfold slice, clamp_index.
  destruct (Z.ltb_spec start 0); [|lia].
  destruct (Z.ltb_spec (window_end text chunk_size start) 0); [lia|].
  by replace (Z.to_nat _) with 0%nat by lia.
Qed.
End window.

(** ** What every pass keeps *)

Section invariants.
Variables (text : str) (chunk_size overlap : Z).
Hypothesis Hvalid : valid_parameters chunk_size overlap.

Lemma cursor_ok_initial : cursor_ok text chunk_size overlap initial.
Proof.
  destruct Hvalid as [? ?]. pose proof (len_nonneg text).
  unfold cursor_ok, initial; simpl. lia.
Qed.

Lemma cursor_ok_step st :
  cursor_ok text chunk_size overlap st → st_start st < len text →
  cursor_ok text chunk_size overlap (loop_body text chunk_size overlap st).
Proof.
  destruct Hvalid as [Hc Ho]. intros [Hs Hneg] Hlt.
  pose proof (window_end_bounds text chunk_size (st_start st)
                ltac:(lia) Hlt) as Hw.
  unfold cursor_ok. rewrite loop_body_start.
  destruct (Z.ltb_spec (window_end text chunk_size (st_start st)) (len text))
    as [Hshort|]; [|lia].
  apply window_end_short in Hshort. lia.
Qed.

(** A window is recorded only from a cursor inside the text, and is
    well formed. *)
Lemma recorded_window st :
  cursor_ok text chunk_size overlap st → st_start st < len text →
  truthy (strip (slice text (st_start st)
                   (window_end text chunk_size (st_start st)))) = true →
  0 ≤ st_start st
  ∧ well_formed text chunk_size
      (RawChunk
         (strip (slice text (st_start st)
                   (window_end text chunk_size (st_start st))))
         (st_start st) (window_end text chunk_size (st_start st))
         (st_chunk_index st)).
Proof.
  destruct Hvalid as [Hc Ho]. intros [Hs Hneg] Hlt Hcontent.
  pose proof (window_end_bounds text chunk_size (st_start st)
                ltac:(lia) Hlt) as Hw.
  apply truthy_true in Hcontent.
  assert (Hslice : slice text (st_start st)
                     (window_end text chunk_size (st_start st)) ≠ []).
  { intros E. by rewrite E in Hcontent. }
  assert (Hpos : 0 ≤ st_start st).
  { destruct (Z.le_gt_cases 0 (st_start st)) as [|Hn]; [done|].
    exfalso. apply Hslice. apply slice_negative_cursor; lia. }
  split; [done|]. unfold well_formed; simpl.
  apply slice_nonempty in Hslice. unfold clamp_index in Hslice.
  destruct (Z.ltb_spec (st_start st) 0); [lia|].
  destruct (Z.ltb_spec (window_end text chunk_size (st_start st)) 0); [lia|].
  split_and!; try done; lia.
Qed.

Lemma well_formed_step st :
  cursor_ok text chunk_size overlap st → st_start st < len text →
  Forall (well_formed text chunk_size) (st_chunks st) →
  Forall (well_formed text chunk_size)
    (st_chunks (loop_body text chunk_size overlap st)).
Proof.
  intros Hcur Hlt Hall.
  destruct (loop_body_chunks text chunk_size overlap st) as [->|[-> Ht]];
    [done|].
  apply Forall_app. split; [done|]. constructor; [|constructor].
  by apply recorded_window.
Qed.

(** Both hold after any number of passes. *)
Lemma run_well_formed n :
  cursor_ok text chunk_size overlap (run n text chunk_size overlap initial)
  ∧ Forall (well_formed text chunk_size)
      (st_chunks (run n text chunk_size overlap initial)).
Proof.
  apply (run_invariant text chunk_size overlap
           (λ st, cursor_ok text chunk_size overlap st
                  ∧ Forall (well_formed text chunk_size) (st_chunks st))).
  - split; [apply cursor_ok_initial|constructor].
  - intros st [Hcur Hall] Hlt. split.
    + by apply cursor_ok_step.
    + by apply well_formed_step.
Qed.
End invariants.

(** The numbering needs nothing of the parameters. *)
Section numbering.
Variables (text : str) (chunk_size overlap : Z).

Lemma numbered_step st :
  numbered st → numbered (loop_body text chunk_size overlap st).
Proof.
  intros [Hidx Hall]. unfold numbered, loop_body.
  destruct (truthy _); simpl; [|done]. split.
  - rewrite length_app; simpl. lia.
  - intros i ch Hi. apply lookup_app_Some in Hi as [Hi|[Hge Hi]].
    + by apply Hall.
    + apply list_lookup_singleton_Some in Hi as [Hi <-]. simpl. lia.
Qed.

Lemma run_numbered n : numbered (run n text chunk_size overlap initial).
Proof.
  apply (run_invariant text chunk_size overlap numbered).
  - split; [done|]. intros i ch. unfold initial; simpl. by rewrite lookup_nil.
  - intros st H _. by apply numbered_step.
Qed.
End numbering.

(** ** What a call returns *)

Lemma loop_unfold fuel text chunk_size overlap st :
  loop fuel text chunk_size overlap st
  = if st_start st <? len text then
      match fuel with
      | O => None
      | S fuel' => loop fuel' text chunk_size overlap
                     (loop_body text chunk_size overlap st)
      end
    else Some (st_chunks st).
Proof. by destruct fuel. Qed.

(** With valid parameters the two checks are passed. *)
Lemma sliding_window_chunk_valid fuel text chunk_size overlap :
  valid_parameters chunk_size overlap →
  sliding_window_chunk fuel text chunk_size overlap
  = if negb (truthy text) || negb (truthy (strip text)) then Returned []
    else match loop fuel text chunk_size overlap initial with
         | Some chunks => Returned chunks
         | None => OutOfFuel
         end.
Proof.
  intros [Hc Ho]. unfold sliding_window_chunk.
  destruct (Z.leb_spec chunk_size 0); [lia|].
  destruct (Z.ltb_spec overlap 0); [lia|].
  by destruct (Z.leb_spec chunk_size overlap); [lia|].
Qed.

(** A call that returns had valid parameters, and returns either the empty
    list for a blank text or what the loop returns. *)
Lemma sliding_window_chunk_returned fuel text chunk_size overlap chunks :
  sliding_window_chunk fuel text chunk_size overlap = Returned chunks →
  valid_parameters chunk_size overlap
  ∧ (chunks = [] ∧ strip text = []
     ∨ strip text ≠ []
       ∧ loop fuel text chunk_size overlap initial = Some chunks).
Proof.
  unfold sliding_window_chunk, valid_parameters.
  destruct (Z.leb_spec chunk_size 0); [done|].
  destruct (Z.ltb_spec overlap 0); [done|].
  destruct (Z.leb_spec chunk_size overlap); [done|]. simpl.
  destruct (truthy text) eqn:Ht; simpl.
  - destruct (truthy (strip text)) eqn:Hs; simpl.
    + destruct (loop _ _ _ _ _) eqn:Hl; [|done].
      intros [= <-]. split; [lia|]. right. by apply truthy_true in Hs.
    + intros [= <-]. split; [lia|]. left. by apply truthy_false in Hs.
  - intros [= <-]. split; [lia|]. left. apply truthy_false in Ht. by subst.
Qed.

(** What a call returns is the list of some state of the loop. *)
Lemma sliding_window_chunk_state fuel text chunk_size overlap chunks :
  sliding_window_chunk fuel text chunk_size overlap = Returned chunks →
  valid_parameters chunk_size overlap
  ∧ ∃ n, chunks = st_chunks (run n text chunk_size overlap initial).
Proof.
  intros H. apply sliding_window_chunk_returned in H as [Hv H].
  split; [done|]. destruct H as [[-> _]|[_ H]].
  - by exists 0%nat.
  - apply loop_run in H as [-> _]. by exists fuel.
Qed.

Lemma indexed_seqZ chunks :
  indexed chunks →
  raw_chunk_index <$> chunks = seqZ 0 (Z.of_nat (length chunks)).
Proof.
  intros H. apply list_eq. intros i. rewrite list_lookup_fmap.
  destruct (chunks !! i) as [ch|] eqn:Hi; simpl.
  - symmetry. apply lookup_seqZ. rewrite (H i ch Hi).
    apply lookup_lt_Some in Hi. lia.
  - symmetry. apply lookup_seqZ_ge. apply lookup_ge_None in Hi. lia.
Qed.

(** ** Parameter errors *)

(** C3: the splitter raises the parameter error ([ValueError]) exactly when
    [chunk_size <= 0], or [overlap < 0], or [overlap >= chunk_size]; this
    holds for every text, the empty one included, since the check comes
    before the text is looked at, and the outcome of a rejected call carries
    no windows. *)
Theorem sliding_window_chunk_raises fuel text chunk_size overlap :
  sliding_window_chunk fuel text chunk_size overlap = Raised ValueError
  ↔ chunk_size ≤ 0 ∨ overlap < 0 ∨ chunk_size ≤ overlap.
Proof.
  unfold sliding_window_chunk.
  destruct (Z.leb_spec chunk_size 0); [split; [lia|done]|].
  destruct (Z.ltb_spec overlap 0); [split; [lia|done]|].
  destruct (Z.leb_spec chunk_size overlap); [split; [lia|done]|]. simpl.
  split; [|lia]. destruct (_ || _); [done|]. by destruct (loop _ _ _ _ _).
Qed.

(** ** Numbering *)

Lemma returned_numbered fuel text chunk_size overlap chunks :
  sliding_window_chunk fuel text chunk_size overlap = Returned chunks →
  raw_chunk_index <$> chunks = seqZ 0 (Z.of_nat (length chunks)).
Proof.
  intros H. apply indexed_seqZ.
  apply sliding_window_chunk_state in H as [_ [n ->]]. apply run_numbered.
Qed.

(** C5: the windows recorded after any number of passes carry the indices
    0, 1, 2, ... in order, and the next index is their number; so do the
    windows a call returns and the chunks of one document; a pass whose
    window trims to nothing leaves both the list and the next index as they
    were. *)
Theorem chunk_index_sequence text chunk_size overlap :
  (∀ n, numbered (run n text chunk_size overlap initial))
  ∧ (∀ fuel chunks,
        sliding_window_chunk fuel text chunk_size overlap = Returned chunks →
        raw_chunk_index <$> chunks = seqZ 0 (Z.of_nat (length chunks)))
  ∧ (∀ fuel doc chunks,
        process_documents fuel [doc] chunk_size overlap = Returned chunks →
        chunk_index <$> chunks = seqZ 0 (Z.of_nat (length chunks)))
  ∧ (∀ st,
        strip (slice text (st_start st)
                 (window_end text chunk_size (st_start st))) = [] →
        st_chunks (loop_body text chunk_size overlap st) = st_chunks st
        ∧ st_chunk_index (loop_body text chunk_size overlap st)
          = st_chunk_index st).
Proof.
  split_and!.
  - apply run_numbered.
  - intros fuel chunks. apply returned_numbered.
  - intros fuel doc chunks.
    unfold process_documents, process_loop, document_chunks.
    destruct (value_truthy _); simpl; [|by intros [= <-]].
    destruct (default (VStr []) (doc !! "content")) as [| | |content| |];
      try by repeat case_match.
    destruct (sliding_window_chunk fuel content chunk_size overlap)
      as [raw| |] eqn:Hraw; [|done..].
    intros [= <-]. rewrite <- list_fmap_compose, length_fmap.
    rewrite <- (returned_numbered _ _ _ _ _ Hraw). done.
  - intros st H. unfold loop_body. by rewrite H.
Qed.

Lemma chunk_index_sequence_witness :
  (∃ chunks,
      sliding_window_chunk 10 sample 20 5 = Returned chunks
      ∧ raw_chunk_index <$> chunks = [0; 1; 2; 3])
  ∧ (∃ chunks,
        process_documents 10 [tagged_document] 20 5 = Returned chunks
        ∧ chunk_index <$> chunks = [0; 1; 2; 3])
  ∧ st_chunk_index (loop_body gapped 4 0 (run 1 gapped 4 0 initial))
    = st_chunk_index (run 1 gapped 4 0 initial).
Proof.
  split_and!.
  - destruct (chunk_index_sequence sample 20 5) as (_ & Hret & _).
    destruct (sliding_window_chunk 10 sample 20 5) as [chunks| |] eqn:E;
      [|by vm_compute in E..].
    exists chunks. split; [done|]. rewrite (Hret _ _ E).
    vm_compute in E. by injection E as <-.
  - destruct (chunk_index_sequence sample 20 5) as (_ & _ & Hdoc & _).
    destruct (process_documents 10 [tagged_document] 20 5) as [chunks| |] eqn:E;
      [|by vm_compute in E..].
    exists chunks. split; [done|]. rewrite (Hdoc _ _ _ E).
    vm_compute in E. by injection E as <-.
  - destruct (chunk_index_sequence gapped 4 0) as (_ & _ & _ & Hdrop).
    apply Hdrop. by vm_compute.
Defined.

(** ** Offsets *)

(** C7: under valid parameters a recorded window spans at most
    [chunk_size] characters, after any number of passes and in what a call
    returns; its trimmed content is no longer than the window. *)
Theorem window_within_chunk_size text chunk_size overlap :
  valid_parameters chunk_size overlap →
  (∀ n ch,
      ch ∈ st_chunks (run n text chunk_size overlap initial) →
      raw_end_char ch - raw_start_char ch ≤ chunk_size
      ∧ len (raw_content ch) ≤ raw_end_char ch - raw_start_char ch)
  ∧ (∀ fuel chunks ch,
        sliding_window_chunk fuel text chunk_size overlap = Returned chunks →
        ch ∈ chunks →
        raw_end_char ch - raw_start_char ch ≤ chunk_size
        ∧ len (raw_content ch) ≤ raw_end_char ch - raw_start_char ch).
Proof.
  intros Hv.
  assert (Hrun : ∀ n ch,
    ch ∈ st_chunks (run n text chunk_size overlap initial) →
    raw_end_char ch - raw_start_char ch ≤ chunk_size
    ∧ len (raw_content ch) ≤ raw_end_char ch - raw_start_char ch).
  { intros n ch Hch.
    destruct (run_well_formed text chunk_size overlap Hv n) as [_ Hall].
    rewrite Forall_forall in Hall.
    destruct (Hall ch Hch) as (Hpos & Hend & Hsize & Hcontent & _).
    split; [done|]. rewrite Hcontent. unfold len.
    pose proof (strip_length (slice text (raw_start_char ch) (raw_end_char ch))).
    rewrite slice_inside in * by lia.
    rewrite length_take in *. lia. }
  split; [exact Hrun|].
  intros fuel chunks ch H Hch.
  apply sliding_window_chunk_state in H as [_ [n ->]]. by apply (Hrun n).
Qed.

Lemma window_within_chunk_size_witness :
  ∃ chunks,
    sliding_window_chunk 10 sample 20 5 = Returned chunks
    ∧ length chunks = 4%nat
    ∧ Forall (λ ch, raw_end_char ch - raw_start_char ch ≤ 20
                    ∧ len (raw_content ch)
                      ≤ raw_end_char ch - raw_start_char ch) chunks.
Proof.
  destruct (sliding_window_chunk 10 sample 20 5) as [chunks| |] eqn:E;
    [|by vm_compute in E..].
  exists chunks. split_and!; [done| |].
  - vm_compute in E. by injection E as <-.
  - apply Forall_forall. intros ch Hch.
    assert (Hv : valid_parameters 20 5) by (unfold valid_parameters; lia).
    exact (proj2 (window_within_chunk_size sample 20 5 Hv) 10%nat chunks ch
             E Hch).
Defined.

(** C10: under valid parameters every recorded window has offsets
    [0 <= start_char < end_char <= len(text)], after any number of passes
    and in what a call returns; and a pass that starts from a negative
    cursor records nothing. *)
Theorem chunk_offsets_well_formed text chunk_size overlap :
  valid_parameters chunk_size overlap →
  (∀ n ch,
      ch ∈ st_chunks (run n text chunk_size overlap initial) →
      0 ≤ raw_start_char ch < raw_end_char ch ∧ raw_end_char ch ≤ len text)
  ∧ (∀ fuel chunks ch,
        sliding_window_chunk fuel text chunk_size overlap = Returned chunks →
        ch ∈ chunks →
        0 ≤ raw_start_char ch < raw_end_char ch ∧ raw_end_char ch ≤ len text)
  ∧ (∀ n,
        st_start (run n text chunk_size overlap initial) < 0 →
        st_chunks (loop_body text chunk_size overlap
                     (run n text chunk_size overlap initial))
        = st_chunks (run n text chunk_size overlap initial)).
Proof.
  intros Hv.
  assert (Hrun : ∀ n ch,
    ch ∈ st_chunks (run n text chunk_size overlap initial) →
    0 ≤ raw_start_char ch < raw_end_char ch ∧ raw_end_char ch ≤ len text).
  { intros n ch Hch.
    destruct (run_well_formed text chunk_size overlap Hv n) as [_ Hall].
    rewrite Forall_forall in Hall.
    by destruct (Hall ch Hch) as (Hpos & Hend & _). }
  split_and!; [exact Hrun| |].
  - intros fuel chunks ch H Hch.
    apply sliding_window_chunk_state in H as [_ [n ->]]. by apply (Hrun n).
  - intros n Hneg.
    destruct (run_well_formed text chunk_size overlap Hv n) as [[Hs Hlen] _].
    destruct Hv as [Hc Ho].
    unfold loop_body. rewrite slice_negative_cursor by lia. done.
Qed.

(** In [short_first_line], split with [chunk_size = 10] and [overlap = 2],
    the cursor is -1 after the first pass; the second pass records nothing
    and the call returns three well-formed windows. *)
Lemma chunk_offsets_well_formed_witness :
  st_start (run 1 short_first_line 10 2 initial) = -1
  ∧ st_chunks (loop_body short_first_line 10 2
                 (run 1 short_first_line 10 2 initial))
    = st_chunks (run 1 short_first_line 10 2 initial)
  ∧ ∃ chunks,
      sliding_window_chunk 10 short_first_line 10 2 = Returned chunks
      ∧ length chunks = 3%nat
      ∧ Forall (λ ch, 0 ≤ raw_start_char ch < raw_end_char ch
                      ∧ raw_end_char ch ≤ len short_first_line) chunks.
Proof.
  assert (Hv : valid_parameters 10 2) by (unfold valid_parameters; lia).
  destruct (chunk_offsets_well_formed short_first_line 10 2 Hv)
    as (_ & Hret & Hneg).
  split_and!; [by vm_compute|apply Hneg; by vm_compute|].
  destruct (sliding_window_chunk 10 short_first_line 10 2) as [chunks| |] eqn:E;
    [|by vm_compute in E..].
  exists chunks. split_and!; [done| |].
  - vm_compute in E. by injection E as <-.
  - apply Forall_forall. intros ch Hch. exact (Hret 10%nat chunks ch E Hch).
Defined.

(** ** Forward progress *)

Lemma scenario_stuck st :
  st_start st = 9 → st_start (loop_body scenario 20 5 st) = 9.
Proof. intros H. rewrite loop_body_start, H. by vm_compute. Qed.

Lemma scenario_loop fuel st :
  st_start st = 9 → loop fuel scenario 20 5 st = None.
Proof.
  revert st. induction fuel as [|fuel IH]; intros st H;
    rewrite loop_unfold, H;
    replace (9 <? len scenario) with true by (by vm_compute); [done|].
  apply IH. by apply scenario_stuck.
Qed.

(** C1, at the paragraph scenario of the specification ([chunk_size = 20],
    [overlap = 5]): the paragraph break at offset 14 is found again from the
    cursor 9 = 14 - 5, so the cursor is 9 after every pass and the call
    returns for no amount of fuel. *)
Theorem scenario_never_returns :
  (∀ n, st_start (run (S n) scenario 20 5 initial) = 9)
  ∧ (∀ fuel, sliding_window_chunk fuel scenario 20 5 = OutOfFuel).
Proof.
  split.
  - induction n as [|n IH]; [by vm_compute|].
    rewrite run_succ. cbv zeta. rewrite IH.
    replace (9 <? len scenario) with true by (by vm_compute).
    by apply scenario_stuck.
  - intros fuel.
    assert (Hloop : loop fuel scenario 20 5 initial = None).
    { destruct fuel as [|fuel]; [by vm_compute|].
      rewrite loop_unfold.
      replace (st_start initial <? len scenario) with true
        by (by vm_compute).
      apply scenario_loop. by vm_compute. }
    unfold sliding_window_chunk. rewrite Hloop. by vm_compute.
Qed.

(** ** Coverage *)

Lemma covered_app chunks extra i :
  covered chunks i → covered (chunks ++ extra) i.
Proof.
  intros (ch & Hin & Hi). exists ch. split; [|done].
  apply elem_of_app. by left.
Qed.

(** A pass from a cursor inside the text keeps every non-blank character
    before the new cursor covered: the new cursor is not behind the end of
    the window, and a window that is dropped is blank. *)
Lemma covered_so_far_step text chunk_size overlap st :
  valid_parameters chunk_size overlap →
  0 ≤ st_start st < len text →
  covered_so_far text st →
  covered_so_far text (loop_body text chunk_size overlap st).
Proof.
  intros [Hc Ho] Hs Hcov i c Hi Hlook Hc'.
  pose proof (window_end_bounds text chunk_size (st_start st)
                ltac:(lia) ltac:(lia)) as Hw.
  rewrite loop_body_start in Hi.
  assert (Hie : Z.of_nat i < window_end text chunk_size (st_start st)).
  { destruct (Z.ltb_spec (window_end text chunk_size (st_start st))
                (len text)); lia. }
  clear Hi.
  destruct (Z.lt_ge_cases (Z.of_nat i) (st_start st)) as [Hold|Hnew].
  - destruct (loop_body_chunks text chunk_size overlap st) as [->|[-> _]].
    + by apply (Hcov i c).
    + apply covered_app. by apply (Hcov i c).
  - destruct (loop_body_chunks text chunk_size overlap st) as [E|[-> _]].
    + exfalso. unfold loop_body in E.
      destruct (truthy _) eqn:Ht; simpl in E.
      { apply (f_equal length) in E. rewrite length_app in E. simpl in E. lia. }
      apply truthy_false, strip_nil in Ht. rewrite Forall_forall in Ht.
      rewrite (Ht c) in Hc'; [done|].
      apply (slice_lookup text _ _ (Z.of_nat i)); [lia..|].
      by rewrite Nat2Z.id.
    + eexists. split; [apply elem_of_app; right; by left|]. simpl. lia.
Qed.

Section progress.
Variables (text : str) (chunk_size overlap : Z).
Hypothesis Hvalid : valid_parameters chunk_size overlap.
Hypothesis Hadv : advances text chunk_size overlap.

(** A cursor that moves forward at every pass is past [n] after [n]
    passes, unless the loop has stopped. *)
Lemma advances_lower n :
  len text ≤ st_start (run n text chunk_size overlap initial)
  ∨ Z.of_nat n ≤ st_start (run n text chunk_size overlap initial).
Proof.
  induction n as [|n IH]; [by right|].
  rewrite run_succ. cbv zeta.
  destruct (Z.ltb_spec (st_start (run n text chunk_size overlap initial))
              (len text)) as [Hlt|Hge]; [|by left].
  right. specialize (Hadv n Hlt). lia.
Qed.

Lemma advances_covered n :
  0 ≤ st_start (run n text chunk_size overlap initial)
  ∧ covered_so_far text (run n text chunk_size overlap initial).
Proof.
  induction n as [|n [IH1 IH2]].
  - split; [done|]. intros i c Hi. simpl in Hi. lia.
  - rewrite run_succ. cbv zeta.
    destruct (Z.ltb_spec (st_start (run n text chunk_size overlap initial))
                (len text)) as [Hlt|Hge]; [|done].
    split.
    + specialize (Hadv n Hlt). lia.
    + by apply covered_so_far_step.
Qed.

(** So the loop stops within [len(text)] passes. *)
Lemma advances_stops :
  len text
  ≤ st_start (run (length text) text chunk_size overlap initial).
Proof. destruct (advances_lower (length text)); unfold len in *; lia. Qed.
End progress.

(** Once the loop has stopped, more fuel changes nothing. *)
Lemma loop_enough_fuel text chunk_size overlap n fuel :
  len text ≤ st_start (run n text chunk_size overlap initial) →
  (n ≤ fuel)%nat →
  loop fuel text chunk_size overlap initial
  = Some (st_chunks (run n text chunk_size overlap initial)).
Proof.
  intros Hstop Hfuel.
  assert (E : run fuel text chunk_size overlap initial
              = run n text chunk_size overlap initial).
  { replace fuel with (n + (fuel - n))%nat by lia.
    rewrite run_add. by apply run_done. }
  rewrite <- E. apply run_loop. by rewrite E.
Qed.

(** Two calls that return, whatever their fuel, return the same list. *)
Lemma sliding_window_chunk_deterministic fuel1 fuel2 text chunk_size overlap
    chunks1 chunks2 :
  sliding_window_chunk fuel1 text chunk_size overlap = Returned chunks1 →
  sliding_window_chunk fuel2 text chunk_size overlap = Returned chunks2 →
  chunks1 = chunks2.
Proof.
  intros H1 H2.
  apply sliding_window_chunk_returned in H1 as [_ [[-> H1]|[H1 L1]]];
    apply sliding_window_chunk_returned in H2 as [_ [[-> H2]|[H2 L2]]];
    try done.
  apply loop_run in L1 as [-> S1]. apply loop_run in L2 as [-> S2].
  pose proof (loop_enough_fuel text chunk_size overlap fuel1 (fuel1 + fuel2)
                S1 ltac:(lia)) as E1.
  pose proof (loop_enough_fuel text chunk_size overlap fuel2 (fuel1 + fuel2)
                S2 ltac:(lia)) as E2.
  congruence.
Qed.

(** Without overlap the cursor always moves forward. *)
Lemma advances_without_overlap text chunk_size :
  0 < chunk_size → advances text chunk_size 0.
Proof.
  intros Hc n Hlt.
  assert (Hv : valid_parameters chunk_size 0) by (unfold valid_parameters; lia).
  destruct (run_well_formed text chunk_size 0 Hv n) as [[Hs _] _].
  pose proof (window_end_after text chunk_size _ Hc Hlt) as Hafter.
  rewrite loop_body_start.
  destruct (Z.ltb_spec
    (window_end text chunk_size (st_start (run n text chunk_size 0 initial)))
    (len text)); lia.
Qed.

(** C2, where it fails: a blank text gives no window at all, and a window
    that trims to nothing is dropped, so that the offsets of [gapped]
    between 4 and 8 are in no returned range. *)
Lemma blank_windows_leave_gaps :
  ¬ covers_all (lit "   ") 100 10 ∧ ¬ covers_all gapped 4 0.
Proof.
  split.
  - intros (fuel & chunks & H & Hne & _). apply Hne.
    apply (sliding_window_chunk_deterministic fuel 0 (lit "   ") 100 10);
      [done|by vm_compute].
  - intros (fuel & chunks & H & _ & Hcov).
    assert (E : chunks = [RawChunk [97%N] 0 4 0; RawChunk [98%N] 8 10 1]).
    { apply (sliding_window_chunk_deterministic fuel 10 gapped 4 0);
        [done|by vm_compute]. }
    subst chunks.
    destruct (Hcov 5) as (ch & Hin & Hr); [by vm_compute|].
    rewrite !elem_of_cons, elem_of_nil in Hin.
    destruct Hin as [->|[->|[]]]; simpl in Hr; lia.
Qed.

(** C2, as amended: under valid parameters, for a text with a non-blank
    character, if the cursor moves forward at every pass then the call
    returns, given fuel for [len(text)] passes, a non-empty list of windows
    whose ranges contain the offset of every non-blank character. *)
Theorem windows_cover_text text chunk_size overlap :
  valid_parameters chunk_size overlap →
  (∃ (i : nat) c, text !! i = Some c ∧ is_space c = false) →
  advances text chunk_size overlap →
  ∃ chunks,
    (∀ fuel, (length text ≤ fuel)%nat →
             sliding_window_chunk fuel text chunk_size overlap
             = Returned chunks)
    ∧ chunks ≠ []
    ∧ ∀ (i : nat) c, text !! i = Some c → is_space c = false →
                     covered chunks (Z.of_nat i).
Proof.
  intros Hv (i0 & c0 & Hi0 & Hc0) Hadv.
  exists (st_chunks (run (length text) text chunk_size overlap initial)).
  pose proof (advances_stops text chunk_size overlap Hadv) as Hstop.
  assert (Hcov : ∀ (i : nat) c, text !! i = Some c → is_space c = false →
    covered (st_chunks (run (length text) text chunk_size overlap initial))
      (Z.of_nat i)).
  { intros i c Hi Hc.
    destruct (advances_covered text chunk_size overlap Hv Hadv (length text))
      as [_ Hall].
    apply (Hall i c); [|done..].
    apply lookup_lt_Some in Hi. unfold len in Hstop. lia. }
  split_and!; [|by destruct (Hcov i0 c0 Hi0 Hc0) as (ch & Hin & _);
                 intros E; rewrite E in Hin; apply elem_of_nil in Hin
               |exact Hcov].
  intros fuel Hfuel. rewrite sliding_window_chunk_valid by done.
  assert (Hstrip : strip text ≠ []).
  { intros E. apply strip_nil in E. rewrite Forall_forall in E.
    rewrite (E c0) in Hc0; [done|]. apply list_elem_of_lookup. by exists i0. }
  assert (Htext : text ≠ []) by (by intros ->).
  apply truthy_true in Hstrip, Htext. rewrite Hstrip, Htext. simpl.
  by rewrite (loop_enough_fuel text chunk_size overlap (length text) fuel).
Qed.

Lemma sample_advances : advances sample 20 5.
Proof.
  intros n. do 4 (destruct n as [|n]; [by vm_compute|]).
  change (S (S (S (S n)))) with (4 + n)%nat. rewrite run_add.
  rewrite (run_done sample 20 5 n) by (by vm_compute).
  intros H. by vm_compute in H.
Defined.

Lemma windows_cover_text_witness :
  ∃ chunks,
    sliding_window_chunk 52 sample 20 5 = Returned chunks
    ∧ chunks ≠ []
    ∧ ∀ (i : nat) c, sample !! i = Some c → is_space c = false →
                     covered chunks (Z.of_nat i).
Proof.
  destruct (windows_cover_text sample 20 5) as (chunks & Hret & Hne & Hcov).
  - unfold valid_parameters. lia.
  - exists 0%nat, 104%N. by vm_compute.
  - exact sample_advances.
  - exists chunks. split_and!; [|done..]. apply Hret. by vm_compute.
Defined.

(** A cursor that falls to -1 leaves a gap: in [short_first_line], split
    with [chunk_size = 10] and [overlap = 2], the call returns, and the
    letters at the offsets 2 to 6 are in none of the three windows. *)
Example negative_cursor_leaves_gap :
  sliding_window_chunk 10 short_first_line 10 2
  = Returned [RawChunk (lit "a") 0 1 0;
              RawChunk (lit "bbbbbbbbbb") 7 17 1;
              RawChunk (lit "bbbbbbb") 15 22 2]
  ∧ short_first_line !! 3%nat = Some 98%N
  ∧ ¬ advances short_first_line 10 2.
Proof.
  split_and!; [by vm_compute..|].
  intros H. specialize (H 0%nat). vm_compute in H.
  by specialize (H eq_refl).
Qed.

(** ** The sentence break *)

Lemma match_at_head text c sub p :
  0 ≤ p → match_at text (c :: sub) p = true → text !! Z.to_nat p = Some c.
Proof.
  intros Hp. unfold match_at.
  replace (text !! Z.to_nat p) with (drop (Z.to_nat p) text !! 0%nat)
    by (rewrite lookup_drop; f_equal; lia).
  destruct (drop (Z.to_nat p) text) as [|c' rest]; simpl; [done|].
  intros [Hc _]%andb_true_iff. apply N.eqb_eq in Hc. by subst.
Qed.

(** The terminators before the first one that is reported after [start]
    are passed over. *)
Lemma sentence_break_first text start end_ before punct after break_point :
  Forall (λ t, rfind text t start end_ ≤ start) before →
  start < rfind text punct start end_ →
  sentence_break text start end_ (before ++ punct :: after) break_point
  = rfind text punct start end_ + 1.
Proof.
  intros Hbefore Hpunct. induction Hbefore as [|t rest Ht _ IH]; simpl.
  - by destruct (Z.ltb_spec start (rfind text punct start end_)); [|lia].
  - by destruct (Z.ltb_spec start (rfind text t start end_)); [lia|].
Qed.

(** Inside the text, [rfind] reports something after [start] exactly when
    there is an occurrence after [start]. *)
Lemma rfind_after text sub start end_ :
  0 ≤ start → 0 ≤ end_ ≤ len text →
  start < rfind text sub start end_ →
  occurs_after text sub start end_ (rfind text sub start end_).
Proof.
  intros Hs He Hr.
  destruct (rfind_found text sub start end_ He ltac:(lia)) as (_ & ? & ?).
  by split_and!.
Qed.

Lemma rfind_not_after text sub start end_ :
  0 ≤ start → 0 ≤ end_ ≤ len text →
  (∀ p, ¬ occurs_after text sub start end_ p) →
  rfind text sub start end_ ≤ start.
Proof.
  intros Hs He Hnone.
  destruct (Z.le_gt_cases (rfind text sub start end_) start) as [|Hr];
    [done|].
  exfalso. apply (Hnone (rfind text sub start end_)). by apply rfind_after.
Qed.

(** C6: from a cursor inside the text, when the naive end is before the end
    of the text and no line break lies strictly after the cursor in the
    window (so no paragraph break either), the window ends one past the last
    occurrence, in the window and strictly after the cursor, of the first
    terminator in the order ['. '], ['? '], ['! '] that has such an
    occurrence. *)
Theorem sentence_break_priority text chunk_size start before punct after :
  0 < chunk_size → 0 ≤ start → start + chunk_size < len text →
  LF ∉ slice text (start + 1) (start + chunk_size) →
  terminators = before ++ punct :: after →
  (∀ t p, t ∈ before →
          ¬ occurs_after text t start (start + chunk_size) p) →
  (∃ p, occurs_after text punct start (start + chunk_size) p) →
  ∃ q,
    window_end text chunk_size start = q + 1
    ∧ occurs_after text punct start (start + chunk_size) q
    ∧ ∀ p, occurs_after text punct start (start + chunk_size) p → p ≤ q.
Proof.
  intros Hc Hs Hlen Hline Hsplit Hbefore (p0 & Hp0 & Hp0e & Hp0m).
  set (end_ := start + chunk_size) in *.
  assert (He : 0 ≤ end_ ≤ len text) by lia.
  assert (Hnl : ∀ sub, rfind text (LF :: sub) start end_ = -1
                       ∨ rfind text (LF :: sub) start end_ ≤ start).
  { intros sub.
    destruct (decide (rfind text (LF :: sub) start end_ = -1)) as [|Hne];
      [by left|right].
    destruct (Z.le_gt_cases (rfind text (LF :: sub) start end_) start)
      as [|Hr]; [done|].
    destruct (rfind_found text (LF :: sub) start end_ He Hne)
      as (_ & Hend & Hm).
    exfalso. apply Hline.
    apply (slice_lookup text _ _ (rfind text (LF :: sub) start end_));
      [lia| |lia|].
    - unfold len in Hend. simpl length in Hend. lia.
    - apply (match_at_head text LF sub); [lia|done]. }
  exists (rfind text punct start end_).
  assert (Hq : start < rfind text punct start end_).
  { pose proof (rfind_max text punct start end_ p0 Hs He ltac:(lia) Hp0e Hp0m).
    lia. }
  split_and!.
  - unfold window_end. fold end_. rewrite (Z.min_l end_) by lia.
    destruct (Z.ltb_spec end_ (len text)); [|lia].
    assert (E : find_break_point text start end_
                = rfind text punct start end_ + 1).
    { unfold find_break_point.
      pose proof (Hnl [LF]) as H1. pose proof (Hnl []) as H2.
      apply no_break_true in H1, H2.
      fold paragraph in H1. fold newline in H2. rewrite H1, H2.
      rewrite Hsplit. apply sentence_break_first; [|done].
      apply Forall_forall. intros t Ht.
      apply rfind_not_after; [done..|]. intros p. by apply Hbefore. }
    rewrite E. by destruct (Z.ltb_spec start (rfind text punct start end_ + 1));
      [|lia].
  - by apply rfind_after.
  - intros p (Hp & Hpe & Hpm). apply rfind_max; [done..|lia|done|done].
Qed.

(** In [priority_text] the window from 0 ends after the full stop at
    offset 5, although an exclamation mark and a blank follow at 15. *)
Lemma sentence_break_priority_witness :
  (∃ q, window_end priority_text 20 0 = q + 1
        ∧ occurs_after priority_text [46; 32]%N 0 20 q
        ∧ ∀ p, occurs_after priority_text [46; 32]%N 0 20 p → p ≤ q)
  ∧ window_end priority_text 20 0 = 6
  ∧ occurs_after priority_text [33; 32]%N 0 20 15.
Proof.
  split; [|by vm_compute].
  apply (sentence_break_priority priority_text 20 0 [] [46; 32]%N
           [[63; 32]; [33; 32]]%N).
  - lia.
  - lia.
  - by vm_compute.
  - apply (bool_decide_unpack _). by vm_compute.
  - reflexivity.
  - intros t p Ht. by apply elem_of_nil in Ht.
  - exists 5. by vm_compute.
Defined.

(** From a cursor below -1 the search range, counted from the end of the
    text, is empty; the -1 that [rfind] answers for ['. '] counts as being
    after the cursor, and the window ends at offset 0. *)
Lemma window_end_below_minus_one text chunk_size start :
  start ≤ -2 → 0 ≤ start + chunk_size → chunk_size < len text →
  window_end text chunk_size start = 0.
Proof.
  intros Hneg Hc Hlen. unfold window_end.
  rewrite Z.min_l by lia.
  destruct (Z.ltb_spec (start + chunk_size) (len text)); [|lia].
  assert (Hnone : ∀ sub, 0 < len sub →
                         rfind text sub start (start + chunk_size) = -1).
  { intros sub Hsub. apply rfind_empty_range; [lia| |done].
    unfold adjust_start. destruct (Z.ltb_spec start 0); lia. }
  unfold find_break_point. cbv zeta.
  rewrite (Hnone paragraph), (Hnone newline) by done.
  assert (E : no_break (-1) start = true) by done.
  rewrite E. cbv iota. rewrite E.
  unfold terminators, sentence_break. rewrite Hnone by done.
  destruct (Z.ltb_spec start (-1)); [|lia]. change (-1 + 1) with 0.
  by destruct (Z.ltb_spec start 0); [|lia].
Qed.

(** The cursor then stays below -1, and the call does not return. *)
Lemma stuck_below_minus_one text chunk_size overlap st :
  valid_parameters chunk_size overlap →
  cursor_ok text chunk_size overlap st → st_start st ≤ -2 →
  ∀ fuel, loop fuel text chunk_size overlap st = None.
Proof.
  intros Hv Hcur Hneg fuel. revert st Hcur Hneg.
  induction fuel as [|fuel IH]; intros st Hcur Hneg; rewrite loop_unfold;
    pose proof (len_nonneg text);
    destruct (Z.ltb_spec (st_start st) (len text)); try lia; [done|].
  pose proof (cursor_ok_step text chunk_size overlap Hv st Hcur ltac:(lia))
    as Hnext.
  apply IH; [done|]. rewrite loop_body_start.
  destruct Hv as [Hc Ho]. destruct Hcur as [Hs Hlen].
  rewrite window_end_below_minus_one by lia.
  destruct (Z.ltb_spec 0 (len text)); lia.
Qed.

Lemma below_minus_one_never_returns text chunk_size overlap n :
  valid_parameters chunk_size overlap →
  st_start (run n text chunk_size overlap initial) ≤ -2 →
  ∀ fuel, loop fuel text chunk_size overlap initial = None.
Proof.
  intros Hv Hneg fuel.
  destruct (loop fuel text chunk_size overlap initial) as [chunks|] eqn:E;
    [exfalso|done].
  apply loop_run in E as [_ Hstop]. pose proof (len_nonneg text).
  destruct (Nat.le_gt_cases fuel n) as [Hle|Hgt].
  - replace n with (fuel + (n - fuel))%nat in Hneg by lia.
    rewrite run_add, run_done in Hneg by done. lia.
  - destruct (run_well_formed text chunk_size overlap Hv n) as [Hcur _].
    pose proof (stuck_below_minus_one text chunk_size overlap _ Hv Hcur Hneg
                  (fuel - n)) as Hnone.
    replace fuel with (n + (fuel - n))%nat in Hstop by lia.
    rewrite run_add in Hstop.
    by rewrite (run_loop _ _ _ _ _ Hstop) in Hnone.
Qed.

(** Such a cursor is reached in [short_first_line] with [chunk_size = 5]
    and [overlap = 4]. *)
Example sentence_break_negative_cursor :
  st_start (run 1 short_first_line 5 4 initial) = -3
  ∧ window_end short_first_line 5 (-3) = 0
  ∧ ∀ fuel, sliding_window_chunk fuel short_first_line 5 4 = OutOfFuel.
Proof.
  split_and!; [by vm_compute..|]. intros fuel.
  assert (Hv : valid_parameters 5 4) by (unfold valid_parameters; lia).
  rewrite sliding_window_chunk_valid by done.
  rewrite (below_minus_one_never_returns short_first_line 5 4 1 Hv)
    by (by vm_compute).
  by vm_compute.
Qed.

(** ** Documents *)

Lemma sliding_window_chunk_blank fuel text chunk_size overlap :
  valid_parameters chunk_size overlap → strip text = [] →
  sliding_window_chunk fuel text chunk_size overlap = Returned [].
Proof.
  intros Hv Hblank. rewrite sliding_window_chunk_valid by done.
  rewrite Hblank. simpl. by rewrite orb_true_r.
Qed.

Lemma document_chunks_blank fuel doc chunk_size overlap :
  blank doc → valid_parameters chunk_size overlap ∨ no_content doc →
  document_chunks fuel doc chunk_size overlap = Returned [].
Proof.
  intros Hblank Hwhy. unfold document_chunks.
  destruct Hblank as [Hd|(text & Hd & Hstrip)]; rewrite Hd; simpl; [done|].
  destruct text as [|c text]; simpl; [done|].
  destruct Hwhy as [Hv|[?|?]]; [|congruence..].
  by rewrite sliding_window_chunk_blank.
Qed.

(** A document that gives no chunk can be taken out of the list. *)
Lemma process_loop_skip fuel before doc after chunk_size overlap all_chunks :
  document_chunks fuel doc chunk_size overlap = Returned [] →
  process_loop fuel (before ++ doc :: after) chunk_size overlap all_chunks
  = process_loop fuel (before ++ after) chunk_size overlap all_chunks.
Proof.
  intros Hdoc. revert all_chunks.
  induction before as [|d before IH]; intros all_chunks; simpl.
  - by rewrite Hdoc, app_nil_r.
  - destruct (document_chunks fuel d chunk_size overlap); [apply IH|done..].
Qed.

(** C4: under valid parameters the splitter returns the empty list for an
    empty or all-blank text, and a document whose [content] is missing,
    empty or all blank gives no chunk and no error: processing it alone
    returns the empty list, and it can be taken out of any list of
    documents without changing the outcome. For a missing or empty
    [content] the parameters play no role, the splitter not being
    called. *)
Theorem blank_document_skipped chunk_size overlap :
  (∀ fuel text,
      valid_parameters chunk_size overlap → strip text = [] →
      sliding_window_chunk fuel text chunk_size overlap = Returned [])
  ∧ (∀ doc,
        blank doc → valid_parameters chunk_size overlap ∨ no_content doc →
        skipped doc chunk_size overlap
        ∧ ∀ fuel before after,
            process_documents fuel (before ++ doc :: after) chunk_size overlap
            = process_documents fuel (before ++ after) chunk_size overlap).
Proof.
  split.
  - intros fuel text. apply sliding_window_chunk_blank.
  - intros doc Hblank Hwhy. split.
    + intros fuel. unfold process_documents. simpl.
      by rewrite document_chunks_blank.
    + intros fuel before after. unfold process_documents.
      apply process_loop_skip. by apply document_chunks_blank.
Qed.

Lemma blank_document_skipped_witness :
  sliding_window_chunk 0 (lit "   ") 1500 200 = Returned []
  ∧ skipped whitespace_document 1500 200
  ∧ skipped (∅ : gmap string value) 0 0
  ∧ process_documents 10 [tagged_document; whitespace_document] 20 5
    = process_documents 10 [tagged_document] 20 5.
Proof.
  assert (Hv : valid_parameters 1500 200) by (unfold valid_parameters; lia).
  assert (Hv' : valid_parameters 20 5) by (unfold valid_parameters; lia).
  assert (Hb : blank whitespace_document).
  { right. exists (lit "   "). by vm_compute. }
  split_and!.
  - by apply (proj1 (blank_document_skipped 1500 200)).
  - apply (proj2 (blank_document_skipped 1500 200)); [done|by left].
  - apply (proj2 (blank_document_skipped 0 0)); [by left|right; by left].
  - apply (proj2 (proj2 (blank_document_skipped 20 5) whitespace_document
                    Hb (or_introl Hv'))
             10%nat [tagged_document] []).
Defined.

(** ** What a chunk carries *)

Lemma is_frontmatter_spec k :
  is_frontmatter k = true ↔ ¬ (k = "content" ∨ k = "filename" ∨ k = "title").
Proof.
  unfold is_frontmatter.
  rewrite negb_true_iff, !orb_false_iff, !String.eqb_neq. tauto.
Qed.

(** The dictionary that [process_documents] builds holds the remaining
    fields, each with the value the document has. *)
Lemma frontmatter_lookup (doc : gmap string value) k :
  filter (λ kv, is_frontmatter kv.1 = true) doc !! k = remaining doc k.
Proof.
  unfold remaining. apply option_eq. intros v.
  rewrite map_lookup_filter_Some. simpl. rewrite is_frontmatter_spec.
  destruct (decide (k = "content" ∨ k = "filename" ∨ k = "title"));
    split; [tauto|done|tauto|tauto].
Qed.

Lemma dict_truthy_true (d : gmap string value) : dict_truthy d = true ↔ d ≠ ∅.
Proof.
  unfold dict_truthy. rewrite negb_true_iff, bool_decide_eq_false.
  by rewrite map_size_empty_iff.
Qed.

Lemma dict_truthy_false (d : gmap string value) : dict_truthy d = false ↔ d = ∅.
Proof.
  unfold dict_truthy. rewrite negb_false_iff, bool_decide_eq_true.
  by rewrite map_size_empty_iff.
Qed.

Lemma document_chunks_carry fuel doc chunk_size overlap chunks :
  document_chunks fuel doc chunk_size overlap = Returned chunks →
  Forall (carries doc) chunks.
Proof.
  unfold document_chunks.
  destruct (value_truthy _); simpl; [|by intros [= <-]].
  destruct (match default (VStr []) (doc !! "content") with
            | VStr text => sliding_window_chunk fuel text chunk_size overlap
            | _ => _
            end) as [raw| |]; [|done..].
  intros [= <-]. apply Forall_fmap, Forall_true. intros rc.
  unfold carries; simpl. split_and!; [done..|].
  destruct (dict_truthy _) eqn:Hd.
  - apply dict_truthy_true in Hd. split; [done|]. apply frontmatter_lookup.
  - apply dict_truthy_false in Hd. intros k.
    by rewrite <- frontmatter_lookup, Hd, lookup_empty.
Qed.

(** What the loop over the documents returns is the accumulator followed
    by the chunks of each document in turn. *)
Lemma process_loop_returned fuel documents chunk_size overlap all_chunks
    chunks :
  process_loop fuel documents chunk_size overlap all_chunks
  = Returned chunks →
  ∃ per_document,
    chunks = all_chunks ++ concat per_document
    ∧ Forall2 (λ doc cs,
                 document_chunks fuel doc chunk_size overlap = Returned cs)
        documents per_document.
Proof.
  revert all_chunks.
  induction documents as [|doc rest IH]; intros all_chunks; simpl.
  - intros [= <-]. exists []. simpl. by rewrite app_nil_r.
  - destruct (document_chunks fuel doc chunk_size overlap) as [cs| |] eqn:Hdoc;
      [|done..].
    intros H. apply IH in H as (per & -> & Hall).
    exists (cs :: per). simpl. rewrite app_assoc. split; [done|].
    by constructor.
Qed.

(** C8: when [process_documents] returns, its list is the chunks made from
    the first document, then those made from the second, and so on, and
    every chunk made from a document has that document's [filename] (or
    ["unknown"]), its [title] (or [None]), and as [metadata] a dictionary
    with exactly the other fields of the document and their values, or
    [None] when there is no other field. *)
Theorem chunks_carry_document_fields fuel documents chunk_size overlap chunks :
  process_documents fuel documents chunk_size overlap = Returned chunks →
  ∃ per_document,
    chunks = concat per_document
    ∧ Forall2
        (λ doc cs,
           document_chunks fuel doc chunk_size overlap = Returned cs
           ∧ Forall (carries doc) cs)
        documents per_document.
Proof.
  intros H. apply process_loop_returned in H as (per & -> & Hall).
  exists per. split; [done|].
  eapply Forall2_impl; [exact Hall|]. simpl.
  intros doc cs Hdoc. split; [done|].
  by apply (document_chunks_carry fuel _ chunk_size overlap).
Qed.

(** Three documents, the second without [content]: four chunks with the
    fields of the first and one with those of the third. *)
Lemma chunks_carry_document_fields_witness :
  ∃ chunks per_document,
    process_documents 10 [tagged_document; empty_document; numbered_document]
      20 5 = Returned chunks
    ∧ chunks = concat per_document
    ∧ Forall2
        (λ doc cs,
           document_chunks 10 doc 20 5 = Returned cs
           ∧ Forall (carries doc) cs)
        [tagged_document; empty_document; numbered_document] per_document
    ∧ filename <$> chunks
      = [VStr (lit "a.md"); VStr (lit "a.md"); VStr (lit "a.md");
         VStr (lit "a.md"); VStr (lit "unknown")]
    ∧ title <$> chunks
      = [VStr (lit "T"); VStr (lit "T"); VStr (lit "T"); VStr (lit "T"); VNone]
    ∧ metadata <$> chunks
      = [Some {[ "tags" := VList [VStr (lit "x")] ]};
         Some {[ "tags" := VList [VStr (lit "x")] ]};
         Some {[ "tags" := VList [VStr (lit "x")] ]};
         Some {[ "tags" := VList [VStr (lit "x")] ]};
         Some (<["chunk_index" := VInt 7]> {[ "author" := VStr (lit "me") ]})].
Proof.
  destruct (process_documents 10
              [tagged_document; empty_document; numbered_document] 20 5)
    as [chunks| |] eqn:E; [|by vm_compute in E..].
  destruct (chunks_carry_document_fields _ _ _ _ _ E) as (per & Hc & Hall).
  exists chunks, per. split_and!; [done..| | |];
    vm_compute in E; by injection E as <-.
Defined.

(** ** Flattening a chunk *)

(** With a non-empty [metadata], its entries are merged over the fields of
    the chunk, and the [metadata] entry is removed afterwards. *)
Lemma to_dict_flattened ch d k :
  metadata ch = Some d → d ≠ ∅ →
  to_dict ch !! k
  = if decide (k = "metadata") then None
    else match d !! k with
         | Some v => Some v
         | None => asdict ch !! k
         end.
Proof.
  intros Hm Hd. unfold to_dict. rewrite Hm.
  apply dict_truthy_true in Hd. rewrite Hd.
  destruct (decide (k = "metadata")) as [->|Hk].
  - apply lookup_delete_eq.
  - rewrite lookup_delete_ne by done. rewrite lookup_union.
    by destruct (d !! k), (asdict ch !! k).
Qed.

(** Without [metadata], or with an empty one, the chunk is returned field
    by field, the [metadata] field included. *)
Lemma to_dict_unflattened ch :
  metadata ch = None ∨ metadata ch = Some ∅ → to_dict ch = asdict ch.
Proof.
  unfold to_dict. intros [->| ->]; [done|].
  by rewrite (proj2 (dict_truthy_false ∅)).
Qed.

(** C9, at a chunk without metadata: [to_dict] returns seven entries, the
    seventh being [metadata] with the value [None]; and at a chunk whose
    metadata has an entry named [metadata], that entry is not in the
    result. *)
Theorem to_dict_metadata_entry :
  to_dict plain_chunk !! "metadata" = Some VNone
  ∧ size (to_dict plain_chunk) = 7%nat
  ∧ metadata nested_chunk = Some {[ "metadata" := VInt 1 ]}
  ∧ to_dict nested_chunk !! "metadata" = None.
Proof. split_and!; by vm_compute. Qed.

(** * Further properties of the code *)

(** ** What trimming leaves *)

Lemma lstrip_head text c rest : lstrip text = c :: rest → is_space c = false.
Proof.
  induction text as [|a text IH]; simpl; [done|].
  destruct (is_space a) eqn:E; [done|]. by intros [= <- _].
Qed.

Lemma lstrip_suffix text : ∃ pre, text = pre ++ lstrip text.
Proof.
  induction text as [|a text [pre IH]]; simpl; [by exists []|].
  destruct (is_space a); [|by exists []].
  exists (a :: pre). simpl. by rewrite <- IH.
Qed.

Lemma rstrip_prefix text : ∃ suf, text = rstrip text ++ suf.
Proof.
  unfold rstrip. destruct (lstrip_suffix (reverse text)) as [pre H].
  exists (reverse pre). apply (f_equal reverse) in H.
  by rewrite reverse_involutive, reverse_app in H.
Qed.

(** A trimmed text that is not empty begins and ends with a character that
    is not whitespace. *)
Lemma strip_ends text :
  strip text ≠ [] →
  (∃ c, head (strip text) = Some c ∧ is_space c = false)
  ∧ (∃ c, last (strip text) = Some c ∧ is_space c = false).
Proof.
  intros Hne. split.
  - unfold strip in *. destruct (rstrip_prefix (lstrip text)) as [suf H].
    destruct (rstrip (lstrip text)) as [|c r] eqn:E; [done|].
    exists c. split; [done|]. by apply (lstrip_head text c (r ++ suf)).
  - unfold strip, rstrip in *. rewrite last_reverse.
    destruct (lstrip (reverse (lstrip text))) as [|c r] eqn:E; [done|].
    exists c. split; [done|]. by apply lstrip_head in E.
Qed.

(** A text without whitespace is left as it is. *)
Lemma strip_solid text : solid text → strip text = text.
Proof.
  assert (Hl : ∀ t, solid t → lstrip t = t).
  { intros t Ht. destruct Ht as [|c t Hc _]; simpl; [done|]. by rewrite Hc. }
  intros H. unfold strip, rstrip. rewrite (Hl text H).
  rewrite Hl; [apply reverse_involutive|]. by apply Forall_reverse.
Qed.

(** ** Short texts, and the two ends of a text *)

(** X1: under valid parameters a text that is not blank and no longer than
    [chunk_size] gives, after one pass, exactly one window: the whole
    text, trimmed, from offset 0 to [len(text)], with index 0. *)
Theorem short_text_single_chunk fuel text chunk_size overlap :
  valid_parameters chunk_size overlap → strip text ≠ [] →
  len text ≤ chunk_size →
  sliding_window_chunk (S fuel) text chunk_size overlap
  = Returned [RawChunk (strip text) 0 (len text) 0].
Proof.
  intros Hv Hstrip Hlen. rewrite sliding_window_chunk_valid by done.
  assert (Htext : text ≠ []) by (by intros ->).
  pose proof Hstrip as Hs. apply truthy_true in Hs, Htext.
  rewrite Hs, Htext. simpl negb. simpl orb. cbv iota.
  assert (Hpos : 0 < len text).
  { apply truthy_true in Htext. destruct text; [done|]. unfold len. simpl. lia. }
  assert (Hend : window_end text chunk_size 0 = len text).
  { unfold window_end. rewrite Z.min_r by lia.
    by destruct (Z.ltb_spec (len text) (len text)); [lia|]. }
  assert (Hslice : slice text 0 (len text) = text).
  { rewrite slice_inside by lia. rewrite Z.sub_0_r. simpl.
    unfold len. rewrite Nat2Z.id. apply firstn_all. }
  rewrite loop_unfold.
  replace (st_start initial <? len text) with true
    by (symmetry; apply Z.ltb_lt; simpl; lia).
  unfold loop_body. simpl st_start. rewrite Hend, Hslice, Hs.
  rewrite loop_unfold. simpl. by rewrite !Z.ltb_irrefl.
Qed.

Lemma short_text_single_chunk_witness :
  sliding_window_chunk 1 (lit "  hello world ") 1500 200
  = Returned [RawChunk (lit "hello world") 0 14 0].
Proof.
  apply (short_text_single_chunk 0 (lit "  hello world ") 1500 200).
  - unfold valid_parameters. lia.
  - by vm_compute.
  - by vm_compute.
Defined.

(** X2: under valid parameters the content of every window that a call
    returns is the trimmed slice of the text between the window's offsets;
    it is not empty and neither begins nor ends with whitespace. *)
Theorem content_is_trimmed_slice fuel text chunk_size overlap chunks ch :
  sliding_window_chunk fuel text chunk_size overlap = Returned chunks →
  ch ∈ chunks →
  raw_content ch = strip (slice text (raw_start_char ch) (raw_end_char ch))
  ∧ (∃ c, head (raw_content ch) = Some c ∧ is_space c = false)
  ∧ (∃ c, last (raw_content ch) = Some c ∧ is_space c = false).
Proof.
  intros H Hch. apply sliding_window_chunk_state in H as [Hv [n ->]].
  destruct (run_well_formed text chunk_size overlap Hv n) as [_ Hall].
  rewrite Forall_forall in Hall.
  destruct (Hall ch Hch) as (_ & _ & _ & Hcontent & Hne).
  split; [done|]. rewrite Hcontent in *. by apply strip_ends.
Qed.

Lemma content_is_trimmed_slice_witness :
  ∃ chunks,
    sliding_window_chunk 10 gapped 4 0 = Returned chunks
    ∧ length chunks = 2%nat
    ∧ Forall (λ ch,
        raw_content ch
        = strip (slice gapped (raw_start_char ch) (raw_end_char ch))
        ∧ (∃ c, head (raw_content ch) = Some c ∧ is_space c = false)
        ∧ (∃ c, last (raw_content ch) = Some c ∧ is_space c = false)) chunks.
Proof.
  destruct (sliding_window_chunk 10 gapped 4 0) as [chunks| |] eqn:E;
    [|by vm_compute in E..].
  exists chunks. split_and!; [done| |].
  - vm_compute in E. by injection E as <-.
  - apply Forall_forall. intros ch Hch.
    exact (content_is_trimmed_slice 10 gapped 4 0 chunks ch E Hch).
Defined.

Section ends.
Variables (text : str) (chunk_size overlap : Z).
Hypothesis Hvalid : valid_parameters chunk_size overlap.

(** A window that holds a character that is not whitespace is recorded. *)
Lemma window_recorded st (i : nat) c :
  st_start st ≤ Z.of_nat i < window_end text chunk_size (st_start st) →
  0 ≤ st_start st → window_end text chunk_size (st_start st) ≤ len text →
  text !! i = Some c → is_space c = false →
  st_chunks (loop_body text chunk_size overlap st)
  = st_chunks st
      ++ [RawChunk
            (strip (slice text (st_start st)
                      (window_end text chunk_size (st_start st))))
            (st_start st) (window_end text chunk_size (st_start st))
            (st_chunk_index st)].
Proof.
  intros Hi Hs He Hc Hsp.
  destruct (loop_body_chunks text chunk_size overlap st) as [E|[E _]];
    [|done].
  exfalso. unfold loop_body in E. destruct (truthy _) eqn:Ht; simpl in E.
  { apply (f_equal length) in E. rewrite length_app in E. simpl in E. lia. }
  apply truthy_false, strip_nil in Ht. rewrite Forall_forall in Ht.
  rewrite (Ht c) in Hsp; [done|].
  apply (slice_lookup text _ _ (Z.of_nat i)); [lia..|]. by rewrite Nat2Z.id.
Qed.

(** When the text begins with a character that is not whitespace, the
    first pass records a window from offset 0, which stays first. *)
Lemma first_window_kept c n :
  text !! 0%nat = Some c → is_space c = false →
  ∃ ch rest,
    st_chunks (run (S n) text chunk_size overlap initial) = ch :: rest
    ∧ raw_start_char ch = 0.
Proof.
  intros Hc Hsp. destruct Hvalid as [Hsize Ho].
  assert (Hpos : 0 < len text).
  { apply lookup_lt_Some in Hc. unfold len. lia. }
  induction n as [|n (ch & rest & IH & Hch)].
  - simpl. destruct (Z.ltb_spec 0 (len text)); [|lia].
    pose proof (window_end_after text chunk_size 0 Hsize Hpos).
    pose proof (window_end_bounds text chunk_size 0 ltac:(lia) Hpos).
    rewrite (window_recorded initial 0 c); simpl; try done; try lia.
    by eexists _, _.
  - rewrite run_succ. cbv zeta. destruct (_ <? _); [|by eexists _, _].
    destruct (loop_body_chunks text chunk_size overlap
                (run (S n) text chunk_size overlap initial)) as [->|[-> _]];
      rewrite IH; by eexists _, _.
Qed.

(** When the loop has stopped and the text ends with a character that is
    not whitespace, the last window recorded ends at the end of the
    text. *)
Lemma last_window_kept c n :
  last text = Some c → is_space c = false →
  len text ≤ st_start (run n text chunk_size overlap initial) →
  ∃ ch,
    last (st_chunks (run n text chunk_size overlap initial)) = Some ch
    ∧ raw_end_char ch = len text.
Proof.
  intros Hc Hsp. rewrite last_lookup in Hc.
  assert (Hpos : 0 < len text).
  { apply lookup_lt_Some in Hc. unfold len. lia. }
  induction n as [|n IH]; [simpl; lia|].
  rewrite run_succ. cbv zeta.
  destruct (Z.ltb_spec (st_start (run n text chunk_size overlap initial))
              (len text)) as [Hlt|Hge]; [clear IH|by apply IH].
  set (st := run n text chunk_size overlap initial) in *.
  destruct (run_well_formed text chunk_size overlap Hvalid n) as [Hcur _].
  fold st in Hcur. destruct Hcur as [Hs Hneg]. destruct Hvalid as [Hsize Ho].
  pose proof (window_end_bounds text chunk_size (st_start st) ltac:(lia) Hlt).
  rewrite loop_body_start.
  destruct (Z.ltb_spec (window_end text chunk_size (st_start st)) (len text));
    [lia|].
  intros _.
  rewrite (window_recorded st (pred (length text)) c);
    [|unfold len in *; lia..|done|done].
  rewrite last_snoc. eexists. split; [done|]. simpl. lia.
Qed.
End ends.

(** X3: when a call returns and the text begins with a character that is
    not whitespace, the first window returned starts at offset 0; when the
    text ends with such a character, the last window returned ends at
    [len(text)]. *)
Theorem ends_of_text_kept fuel text chunk_size overlap chunks :
  sliding_window_chunk fuel text chunk_size overlap = Returned chunks →
  (∀ c, head text = Some c → is_space c = false →
        ∃ ch, head chunks = Some ch ∧ raw_start_char ch = 0)
  ∧ (∀ c, last text = Some c → is_space c = false →
          ∃ ch, last chunks = Some ch ∧ raw_end_char ch = len text).
Proof.
  intros H.
  assert (Hloop : ∀ (i : nat) c, text !! i = Some c → is_space c = false →
    valid_parameters chunk_size overlap
    ∧ loop fuel text chunk_size overlap initial = Some chunks).
  { intros i c Hc Hsp.
    apply sliding_window_chunk_returned in H as [Hv [[_ Hb]|[_ Hl]]]; [|done].
    apply strip_nil in Hb. rewrite Forall_forall in Hb.
    rewrite (Hb c) in Hsp; [done|]. apply list_elem_of_lookup. by exists i. }
  split; intros c Hc Hsp.
  - rewrite head_lookup in Hc.
    destruct (Hloop _ _ Hc Hsp) as [Hv Hl].
    destruct fuel as [|fuel].
    { apply lookup_lt_Some in Hc. rewrite loop_unfold in Hl. simpl in Hl.
      destruct (Z.ltb_spec 0 (len text)); [done|]. unfold len in *. lia. }
    apply loop_run in Hl as [-> _].
    destruct (first_window_kept text chunk_size overlap Hv c fuel Hc Hsp)
      as (ch & rest & -> & Hch).
    by exists ch.
  - pose proof Hc as Hc'. rewrite last_lookup in Hc'.
    destruct (Hloop _ _ Hc' Hsp) as [Hv Hl].
    apply loop_run in Hl as [-> Hstop].
    by apply (last_window_kept text chunk_size overlap Hv c).
Qed.

Lemma ends_of_text_kept_witness :
  ∃ chunks,
    sliding_window_chunk 10 sample 20 5 = Returned chunks
    ∧ (∃ ch, head chunks = Some ch ∧ raw_start_char ch = 0)
    ∧ (∃ ch, last chunks = Some ch ∧ raw_end_char ch = len sample).
Proof.
  destruct (sliding_window_chunk 10 sample 20 5) as [chunks| |] eqn:E;
    [|by vm_compute in E..].
  exists chunks. split; [done|].
  destruct (ends_of_text_kept 10 sample 20 5 chunks E) as [Hfirst Hlast].
  split.
  - apply (Hfirst 104%N); by vm_compute.
  - apply (Hlast 101%N); by vm_compute.
Defined.

(** ** Calls that always return *)

(** When the cursor moves forward at every pass, [len(text)] passes are
    enough, and every character that is not whitespace is in a window. *)
Lemma advances_returns text chunk_size overlap fuel :
  valid_parameters chunk_size overlap → strip text ≠ [] →
  advances text chunk_size overlap → (length text ≤ fuel)%nat →
  sliding_window_chunk fuel text chunk_size overlap
  = Returned (st_chunks (run (length text) text chunk_size overlap initial))
  ∧ ∀ (i : nat) c, text !! i = Some c → is_space c = false →
      covered (st_chunks (run (length text) text chunk_size overlap initial))
        (Z.of_nat i).
Proof.
  intros Hv Hstrip Hadv Hfuel.
  pose proof (advances_stops text chunk_size overlap Hadv) as Hstop.
  split.
  - rewrite sliding_window_chunk_valid by done.
    assert (Htext : text ≠ []) by (by intros ->).
    apply truthy_true in Hstrip, Htext. rewrite Hstrip, Htext. simpl.
    by rewrite (loop_enough_fuel text chunk_size overlap (length text) fuel).
  - intros i c Hi Hc.
    destruct (advances_covered text chunk_size overlap Hv Hadv (length text))
      as [_ Hall].
    apply (Hall i c); [|done..].
    apply lookup_lt_Some in Hi. unfold len in Hstop. lia.
Qed.

Section without_overlap.
Variables (text : str) (chunk_size : Z).
Hypothesis Hsize : 0 < chunk_size.

(** Without overlap every recorded window ends at or before the cursor,
    and before the windows recorded after it. *)
Lemma disjoint_step st :
  0 ≤ st_start st < len text →
  disjoint (st_chunks st)
  ∧ Forall (λ ch, raw_end_char ch ≤ st_start st) (st_chunks st) →
  disjoint (st_chunks (loop_body text chunk_size 0 st))
  ∧ Forall (λ ch, raw_end_char ch ≤ st_start (loop_body text chunk_size 0 st))
      (st_chunks (loop_body text chunk_size 0 st)).
Proof.
  intros Hs [Hdis Hall].
  pose proof (window_end_after text chunk_size (st_start st) Hsize
                ltac:(lia)) as Hafter.
  pose proof (window_end_bounds text chunk_size (st_start st)
                ltac:(lia) ltac:(lia)) as Hw.
  assert (Hnext : st_start (loop_body text chunk_size 0 st)
                  = window_end text chunk_size (st_start st)).
  { rewrite loop_body_start.
    destruct (Z.ltb_spec (window_end text chunk_size (st_start st))
                (len text)); lia. }
  rewrite Hnext.
  assert (Hold : Forall (λ ch, raw_end_char ch
                               ≤ window_end text chunk_size (st_start st))
                   (st_chunks st)).
  { eapply Forall_impl; [exact Hall|]. simpl. intros ch ?. lia. }
  destruct (loop_body_chunks text chunk_size 0 st) as [->|[-> _]]; [done|].
  split.
  - intros i j a b Hij Ha Hb.
    apply lookup_app_Some in Hb as [Hb|[Hge Hb]].
    + apply (Hdis i j a b Hij); [|done].
      apply lookup_lt_Some in Hb. by rewrite lookup_app_l in Ha by lia.
    + apply list_lookup_singleton_Some in Hb as [Hj <-]. simpl.
      rewrite lookup_app_l in Ha by lia.
      rewrite Forall_forall in Hall. apply Hall.
      apply list_elem_of_lookup. by exists i.
  - apply Forall_app. split; [done|]. constructor; [simpl; lia|constructor].
Qed.

Lemma run_disjoint n :
  0 ≤ st_start (run n text chunk_size 0 initial)
  ∧ disjoint (st_chunks (run n text chunk_size 0 initial)).
Proof.
  assert (Hv : valid_parameters chunk_size 0) by (unfold valid_parameters; lia).
  assert (H : cursor_ok text chunk_size 0 (run n text chunk_size 0 initial)
    ∧ disjoint (st_chunks (run n text chunk_size 0 initial))
    ∧ Forall (λ ch, raw_end_char ch
                    ≤ st_start (run n text chunk_size 0 initial))
        (st_chunks (run n text chunk_size 0 initial))).
  { apply (run_invariant text chunk_size 0
      (λ st, cursor_ok text chunk_size 0 st
             ∧ disjoint (st_chunks st)
             ∧ Forall (λ ch, raw_end_char ch ≤ st_start st) (st_chunks st))).
    - split_and!; [by apply cursor_ok_initial| |constructor].
      intros i j a b _ Ha. unfold initial in Ha. simpl in Ha.
      by rewrite lookup_nil in Ha.
    - intros st (Hcur & Hd) Hlt. split; [by apply cursor_ok_step|].
      apply disjoint_step; [|done]. destruct Hcur as [? _]. lia. }
  destruct H as ([? _] & ? & _). split; [lia|done].
Qed.
End without_overlap.

(** X4: with [overlap = 0] and a positive [chunk_size] a call returns for
    every text, given fuel for [len(text)] passes; the windows it returns
    do not overlap (each one ends at or before the start of every later
    one), and every character that is not whitespace is in one of them. *)
Theorem no_overlap_partition text chunk_size :
  0 < chunk_size →
  ∃ chunks,
    (∀ fuel, (length text ≤ fuel)%nat →
             sliding_window_chunk fuel text chunk_size 0 = Returned chunks)
    ∧ disjoint chunks
    ∧ ∀ (i : nat) c, text !! i = Some c → is_space c = false →
                     covered chunks (Z.of_nat i).
Proof.
  intros Hsize.
  assert (Hv : valid_parameters chunk_size 0) by (unfold valid_parameters; lia).
  destruct (decide (strip text = [])) as [Hblank|Hstrip].
  - exists []. split_and!.
    + intros fuel _. by apply sliding_window_chunk_blank.
    + intros i j a b _ Ha. by rewrite lookup_nil in Ha.
    + intros i c Hi Hc. apply strip_nil in Hblank.
      rewrite Forall_forall in Hblank. rewrite (Hblank c) in Hc; [done|].
      apply list_elem_of_lookup. by exists i.
  - exists (st_chunks (run (length text) text chunk_size 0 initial)).
    pose proof (advances_without_overlap text chunk_size Hsize) as Hadv.
    split_and!.
    + intros fuel Hfuel.
      by apply (advances_returns text chunk_size 0 fuel Hv Hstrip Hadv).
    + by apply run_disjoint.
    + by apply (advances_returns text chunk_size 0 (length text) Hv Hstrip
                  Hadv).
Qed.

Lemma no_overlap_partition_witness :
  ∃ chunks,
    sliding_window_chunk 66 scenario 20 0 = Returned chunks
    ∧ disjoint chunks
    ∧ ∀ (i : nat) c, scenario !! i = Some c → is_space c = false →
                     covered chunks (Z.of_nat i).
Proof.
  destruct (no_overlap_partition scenario 20) as (chunks & Hret & Hd & Hcov);
    [lia|].
  exists chunks. split_and!; [|done..]. apply Hret. by vm_compute.
Defined.

(** ** Texts without whitespace *)

Lemma starts_with_prefix sub text :
  starts_with sub text = true → ∃ rest, text = sub ++ rest.
Proof.
  revert text. induction sub as [|a sub IH]; intros text; simpl.
  - by exists text.
  - destruct text as [|b text]; [done|].
    intros [Hab Hrest]%andb_true_iff. apply N.eqb_eq in Hab as ->.
    destruct (IH text Hrest) as [rest ->]. by exists rest.
Qed.

Lemma match_at_elem text sub p c :
  match_at text sub p = true → c ∈ sub → c ∈ text.
Proof.
  unfold match_at. intros [rest H]%starts_with_prefix Hc.
  rewrite <- (take_drop (Z.to_nat p) text), H.
  apply elem_of_app. right. apply elem_of_app. by left.
Qed.

(** In a text without whitespace nothing that holds a whitespace character
    is found. *)
Lemma solid_rfind text sub start end_ c :
  solid text → 0 ≤ end_ ≤ len text → c ∈ sub → is_space c = true →
  rfind text sub start end_ = -1.
Proof.
  intros Hsolid He Hc Hsp.
  destruct (decide (rfind text sub start end_ = -1)) as [|Hne]; [done|].
  destruct (rfind_found text sub start end_ He Hne) as (_ & _ & Hm).
  apply (match_at_elem text sub _ c) in Hm; [|done].
  unfold solid in Hsolid. rewrite Forall_forall in Hsolid.
  by rewrite (Hsolid c Hm) in Hsp.
Qed.

(** So every window is cut at the naive end. *)
Lemma solid_window_end text chunk_size start :
  solid text → 0 ≤ start → 0 ≤ start + chunk_size →
  window_end text chunk_size start = Z.min (start + chunk_size) (len text).
Proof.
  intros Hsolid Hs Hc. unfold window_end. pose proof (len_nonneg text).
  destruct (Z.ltb_spec (Z.min (start + chunk_size) (len text)) (len text));
    [|done].
  set (end_ := Z.min (start + chunk_size) (len text)) in *.
  assert (Hnone : ∀ sub c, c ∈ sub → is_space c = true →
                           rfind text sub start end_ = -1).
  { intros sub c. apply solid_rfind; [done|lia]. }
  assert (E : find_break_point text start end_ = -1).
  { unfold find_break_point. cbv zeta.
    rewrite (Hnone paragraph LF), (Hnone newline LF)
      by (done || apply list_elem_of_here).
    assert (E : no_break (-1) start = true) by done.
    rewrite E. cbv iota. rewrite E.
    unfold terminators, sentence_break.
    rewrite (Hnone [46; 32]%N 32%N), (Hnone [63; 32]%N 32%N),
      (Hnone [33; 32]%N 32%N)
      by (done || apply list_elem_of_further, list_elem_of_here).
    by destruct (Z.ltb_spec start (-1)); [lia|]. }
  rewrite E. by destruct (Z.ltb_spec start (-1)); [lia|].
Qed.

Section solid_text.
Variables (text : str) (chunk_size overlap : Z).
Hypothesis Hvalid : valid_parameters chunk_size overlap.
Hypothesis Hsolid : solid text.

(** One pass records the next hard cut and moves the cursor forward. *)
Lemma solid_step st :
  hard_cuts text chunk_size overlap (st_chunks st)
  ∧ (st_start st = len text
     ∨ st_start st
       = Z.of_nat (length (st_chunks st)) * (chunk_size - overlap)) →
  st_start st < len text →
  (hard_cuts text chunk_size overlap
     (st_chunks (loop_body text chunk_size overlap st))
   ∧ (st_start (loop_body text chunk_size overlap st) = len text
      ∨ st_start (loop_body text chunk_size overlap st)
        = Z.of_nat (length (st_chunks (loop_body text chunk_size overlap st)))
          * (chunk_size - overlap)))
  ∧ st_start st < st_start (loop_body text chunk_size overlap st).
Proof.
  destruct Hvalid as [Hc Ho]. intros [Hcuts Hcur] Hlt.
  destruct Hcur as [Hcur|Hcur]; [lia|].
  assert (Hs : 0 ≤ st_start st) by (rewrite Hcur; nia).
  pose proof (solid_window_end text chunk_size (st_start st) Hsolid Hs
                ltac:(lia)) as Hend.
  set (e := window_end text chunk_size (st_start st)) in *.
  assert (Hslice : strip (slice text (st_start st) e)
                   = slice text (st_start st) e).
  { apply strip_solid. rewrite slice_inside by lia.
    by apply Forall_take, Forall_drop. }
  assert (Hne : truthy (slice text (st_start st) e) = true).
  { apply truthy_true. intros E. apply (f_equal length) in E.
    rewrite slice_inside in E by lia.
    rewrite length_take, length_drop in E. simpl in E.
    unfold len in *. lia. }
  unfold loop_body. fold e. rewrite Hslice, Hne. simpl.
  split_and!.
  - intros i ch Hi. apply lookup_app_Some in Hi as [Hi|[Hge Hi]].
    + by apply Hcuts.
    + apply list_lookup_singleton_Some in Hi as [Hi <-]. simpl.
      split_and!; [|done..]. rewrite Hcur. f_equal. lia.
  - rewrite length_app. simpl.
    destruct (Z.ltb_spec e (len text)); [right|by left].
    rewrite Hcur in *. lia.
  - destruct (Z.ltb_spec e (len text)); lia.
Qed.

Lemma solid_run n :
  hard_cuts text chunk_size overlap
    (st_chunks (run n text chunk_size overlap initial))
  ∧ (st_start (run n text chunk_size overlap initial) = len text
     ∨ st_start (run n text chunk_size overlap initial)
       = Z.of_nat (length (st_chunks (run n text chunk_size overlap initial)))
         * (chunk_size - overlap)).
Proof.
  apply (run_invariant text chunk_size overlap
    (λ st, hard_cuts text chunk_size overlap (st_chunks st)
           ∧ (st_start st = len text
              ∨ st_start st
                = Z.of_nat (length (st_chunks st)) * (chunk_size - overlap)))).
  - split; [|by right]. intros i ch Hi. unfold initial in Hi. simpl in Hi.
    by rewrite lookup_nil in Hi.
  - intros st H Hlt. by apply solid_step.
Qed.

Lemma solid_advances : advances text chunk_size overlap.
Proof. intros n Hlt. apply solid_step; [apply solid_run|done]. Qed.
End solid_text.

(** X5: under valid parameters a call on a non-empty text without any
    whitespace returns, given fuel for [len(text)] passes; window [i] starts
    at [i * (chunk_size - overlap)], ends [chunk_size] characters later or
    at the end of the text, has index [i] and holds exactly that slice; the
    last window ends at [len(text)] and every offset of the text is in a
    window. *)
Theorem solid_text_hard_cuts text chunk_size overlap :
  valid_parameters chunk_size overlap → solid text → text ≠ [] →
  ∃ chunks,
    (∀ fuel, (length text ≤ fuel)%nat →
             sliding_window_chunk fuel text chunk_size overlap
             = Returned chunks)
    ∧ hard_cuts text chunk_size overlap chunks
    ∧ indexed chunks
    ∧ (∃ ch, last chunks = Some ch ∧ raw_end_char ch = len text)
    ∧ ∀ p, 0 ≤ p < len text → covered chunks p.
Proof.
  intros Hv Hsolid Htext.
  assert (Hstrip : strip text ≠ []) by (by rewrite strip_solid).
  pose proof (solid_advances text chunk_size overlap Hv Hsolid) as Hadv.
  exists (st_chunks (run (length text) text chunk_size overlap initial)).
  split_and!.
  - intros fuel Hfuel.
    by apply (advances_returns text chunk_size overlap fuel Hv Hstrip Hadv).
  - apply solid_run; done.
  - apply run_numbered.
  - destruct (last text) as [c|] eqn:Hlast;
      [|by apply last_None in Hlast].
    apply (last_window_kept text chunk_size overlap Hv c); [done| |].
    + unfold solid in Hsolid. rewrite Forall_forall in Hsolid.
      apply Hsolid. rewrite last_lookup in Hlast.
      apply list_elem_of_lookup. by eexists.
    + by apply advances_stops.
  - intros p Hp.
    destruct (lookup_lt_is_Some_2 text (Z.to_nat p)) as [c Hc];
      [unfold len in Hp; lia|].
    replace p with (Z.of_nat (Z.to_nat p)) by lia.
    apply (proj2 (advances_returns text chunk_size overlap (length text) Hv
                    Hstrip Hadv (Nat.le_refl _)) _ c Hc).
    unfold solid in Hsolid. rewrite Forall_forall in Hsolid.
    apply Hsolid. apply list_elem_of_lookup. by eexists.
Qed.

Lemma solid_text_hard_cuts_witness :
  ∃ chunks,
    sliding_window_chunk 26 alphabet 10 3 = Returned chunks
    ∧ hard_cuts alphabet 10 3 chunks
    ∧ indexed chunks
    ∧ (∃ ch, last chunks = Some ch ∧ raw_end_char ch = len alphabet)
    ∧ (∀ p, 0 ≤ p < len alphabet → covered chunks p)
    ∧ (raw_start_char <$> chunks) = [0; 7; 14; 21].
Proof.
  destruct (solid_text_hard_cuts alphabet 10 3)
    as (chunks & Hret & Hcuts & Hidx & Hlast & Hcov).
  - unfold valid_parameters. lia.
  - apply (bool_decide_unpack _). by vm_compute.
  - by vm_compute.
  - exists chunks. specialize (Hret 26%nat ltac:(by vm_compute)).
    split; [exact Hret|]. split; [exact Hcuts|]. split; [exact Hidx|].
    split; [exact Hlast|]. split; [exact Hcov|].
    vm_compute in Hret. by injection Hret as <-.
Defined.

(** ** Lists of documents *)

(** The accumulator comes first in what the loop returns. *)
Lemma process_loop_accumulator fuel documents chunk_size overlap all_chunks :
  process_loop fuel documents chunk_size overlap all_chunks
  = match process_loop fuel documents chunk_size overlap [] with
    | Returned chunks => Returned (all_chunks ++ chunks)
    | Raised e => Raised e
    | OutOfFuel => OutOfFuel
    end.
Proof.
  revert all_chunks.
  induction documents as [|doc rest IH]; intros all_chunks; simpl.
  - by rewrite app_nil_r.
  - destruct (document_chunks fuel doc chunk_size overlap) as [cs| |];
      [|done..].
    rewrite (IH (all_chunks ++ cs)), (IH cs).
    destruct (process_loop fuel rest chunk_size overlap []); [|done..].
    by rewrite app_assoc.
Qed.

(** X6: the documents are processed in order, the chunks of the first part
    of the list coming before those of the second part, and the first call
    of the splitter that raises or does not return decides the outcome. *)
Theorem process_documents_app fuel documents1 documents2 chunk_size overlap :
  process_documents fuel (documents1 ++ documents2) chunk_size overlap
  = match process_documents fuel documents1 chunk_size overlap with
    | Returned chunks1 =>
        match process_documents fuel documents2 chunk_size overlap with
        | Returned chunks2 => Returned (chunks1 ++ chunks2)
        | Raised e => Raised e
        | OutOfFuel => OutOfFuel
        end
    | Raised e => Raised e
    | OutOfFuel => OutOfFuel
    end.
Proof.
  unfold process_documents. generalize (@nil Chunk) at 1 2 as all_chunks.
  induction documents1 as [|doc rest IH]; intros all_chunks; simpl.
  - apply process_loop_accumulator.
  - destruct (document_chunks fuel doc chunk_size overlap) as [cs| |];
      [|done..].
    apply IH.
Qed.

Lemma document_chunks_invalid fuel doc chunk_size overlap :
  ¬ valid_parameters chunk_size overlap →
  document_chunks fuel doc chunk_size overlap
  = if has_text doc then Raised ValueError else Returned [].
Proof.
  intros Hinv. unfold document_chunks, has_text.
  destruct (value_truthy _); simpl; [|done].
  assert (Hbad : chunk_size ≤ 0 ∨ overlap < 0 ∨ chunk_size ≤ overlap).
  { unfold valid_parameters in Hinv. lia. }
  destruct (default (VStr []) (doc !! "content")) as [| | |text| |].
  4: { unfold sliding_window_chunk.
       destruct (Z.leb_spec chunk_size 0); [done|].
       destruct (Z.ltb_spec overlap 0); [done|].
       by destruct (Z.leb_spec chunk_size overlap); [|lia]. }
  all: destruct (Z.leb_spec chunk_size 0); [done|];
       destruct (Z.ltb_spec overlap 0); [done|];
       by destruct (Z.leb_spec chunk_size overlap); [|lia].
Qed.

(** X7: [process_documents] does not check the parameters itself: with
    invalid parameters it raises the parameter error when some document has
    a truthy [content], and returns the empty list when none has. *)
Theorem process_documents_invalid fuel documents chunk_size overlap :
  ¬ valid_parameters chunk_size overlap →
  process_documents fuel documents chunk_size overlap
  = if existsb has_text documents then Raised ValueError else Returned [].
Proof.
  intros Hinv. unfold process_documents.
  induction documents as [|doc rest IH]; simpl; [done|].
  rewrite document_chunks_invalid by done.
  by destruct (has_text doc).
Qed.

Lemma process_documents_invalid_witness :
  process_documents 5 [empty_document; ∅] 0 0 = Returned []
  ∧ process_documents 5 [empty_document; tagged_document] 10 10
    = Raised ValueError.
Proof.
  split.
  - rewrite process_documents_invalid; [by vm_compute|].
    unfold valid_parameters. lia.
  - rewrite process_documents_invalid; [by vm_compute|].
    unfold valid_parameters. lia.
Defined.

(** The chunks of one document are numbered from 0 and lie in its text. *)
Lemma document_chunks_located fuel doc chunk_size overlap chunks :
  document_chunks fuel doc chunk_size overlap = Returned chunks →
  chunk_index <$> chunks = seqZ 0 (Z.of_nat (length chunks))
  ∧ (chunks = []
     ∨ ∃ text, doc !! "content" = Some (VStr text)
               ∧ Forall (located text chunk_size) chunks).
Proof.
  unfold document_chunks.
  destruct (doc !! "content") as [v|] eqn:Hdoc; simpl;
    [|intros [= <-]; split; [done|by left]].
  destruct (value_truthy v); simpl; [|intros [= <-]; split; [done|by left]].
  destruct v as [| | |text| |]; try by repeat case_match.
  destruct (sliding_window_chunk fuel text chunk_size overlap)
    as [raw| |] eqn:Hraw; [|done..].
  intros [= <-]. split.
  - rewrite <- list_fmap_compose, length_fmap.
    by rewrite <- (returned_numbered _ _ _ _ _ Hraw).
  - right. exists text. split; [done|].
    apply sliding_window_chunk_state in Hraw as [Hv [n ->]].
    destruct (run_well_formed text chunk_size overlap Hv n) as [_ Hall].
    apply Forall_fmap. eapply Forall_impl; [exact Hall|].
    intros rc ([? ?] & ? & ? & ? & ?). unfold located. simpl. by split_and!.
Qed.

(** X8: when [process_documents] returns, the chunks of each document are
    numbered 0, 1, 2, ... afresh, and when a document has chunks its
    [content] is a text in which every one of them lies: the offsets are
    offsets of that text, at most [chunk_size] apart, and the content of
    the chunk is the trimmed slice between them, which is not empty. *)
Theorem chunks_lie_in_their_document fuel documents chunk_size overlap chunks :
  process_documents fuel documents chunk_size overlap = Returned chunks →
  ∃ per_document,
    chunks = concat per_document
    ∧ Forall2
        (λ doc cs,
           chunk_index <$> cs = seqZ 0 (Z.of_nat (length cs))
           ∧ (cs = []
              ∨ ∃ text, doc !! "content" = Some (VStr text)
                        ∧ Forall (located text chunk_size) cs))
        documents per_document.
Proof.
  intros H. apply process_loop_returned in H as (per & -> & Hall).
  exists per. split; [done|].
  eapply Forall2_impl; [exact Hall|]. simpl.
  intros doc cs. apply document_chunks_located.
Qed.

Lemma chunks_lie_in_their_document_witness :
  ∃ chunks per_document,
    process_documents 10 [tagged_document; empty_document; numbered_document]
      20 5 = Returned chunks
    ∧ length chunks = 5%nat
    ∧ chunks = concat per_document
    ∧ Forall2
        (λ doc cs,
           chunk_index <$> cs = seqZ 0 (Z.of_nat (length cs))
           ∧ (cs = []
              ∨ ∃ text, doc !! "content" = Some (VStr text)
                        ∧ Forall (located text 20) cs))
        [tagged_document; empty_document; numbered_document] per_document.
Proof.
  destruct (process_documents 10
              [tagged_document; empty_document; numbered_document] 20 5)
    as [chunks| |] eqn:E; [|by vm_compute in E..].
  destruct (chunks_lie_in_their_document _ _ _ _ _ E) as (per & Hc & Hall).
  exists chunks, per. split_and!; [done| |done|done].
  vm_compute in E. by injection E as <-.
Defined.

(** X9: under valid parameters, when the [content] of every document that
    has one is a text, [process_documents] raises nothing. *)
Theorem text_documents_never_raise fuel documents chunk_size overlap e :
  valid_parameters chunk_size overlap →
  Forall (λ doc : gmap string value,
            ∀ v, doc !! "content" = Some v → ∃ text, v = VStr text)
    documents →
  process_documents fuel documents chunk_size overlap ≠ Raised e.
Proof.
  intros Hv Hall. unfold process_documents. generalize (@nil Chunk).
  induction Hall as [|doc rest Hdoc _ IH]; intros all_chunks; simpl; [done|].
  assert (Hok : document_chunks fuel doc chunk_size overlap ≠ Raised e).
  { unfold document_chunks.
    destruct (doc !! "content") as [v|] eqn:E; simpl; [|done].
    destruct (Hdoc v eq_refl) as [text ->]. simpl.
    destruct (truthy text); simpl; [|done].
    rewrite sliding_window_chunk_valid by done.
    destruct (_ || _); [done|]. by destruct (loop _ _ _ _ _). }
  destruct (document_chunks fuel doc chunk_size overlap) as [cs|e'|] eqn:E;
    [apply IH| |done].
  intros [= ->]. done.
Qed.

Lemma text_documents_never_raise_witness :
  process_documents 10 [tagged_document; empty_document] 20 5
  ≠ Raised AttributeError
  ∧ ∃ chunks,
      process_documents 10 [tagged_document; empty_document] 20 5
      = Returned chunks
      ∧ length chunks = 4%nat.
Proof.
  split.
  - apply text_documents_never_raise.
    + unfold valid_parameters. lia.
    + repeat constructor.
      * intros v Hv. vm_compute in Hv. injection Hv as <-. by eexists.
      * intros v Hv. by vm_compute in Hv.
  - eexists. split; [by vm_compute|done].
Defined.

(** ** Flattened chunks *)

Lemma asdict_field ch k : k ≠ "metadata" → asdict ch !! k = field ch k.
Proof.
  intros Hk. unfold asdict, field.
  repeat (case_decide;
          [subst k; by rewrite lookup_insert_eq|
           rewrite lookup_insert_ne by congruence]).
  rewrite lookup_insert_ne by congruence. apply lookup_empty.
Qed.

(** X10: for a chunk with a non-empty [metadata], [to_dict] has no entry
    named [metadata]; under any other name it has the entry of the
    [metadata] when there is one, even if the name is that of a field of
    the chunk, and the field of the chunk of that name otherwise. *)
Theorem to_dict_merges_metadata ch d k :
  metadata ch = Some d → d ≠ ∅ →
  to_dict ch !! k
  = if decide (k = "metadata") then None
    else match d !! k with
         | Some v => Some v
         | None => field ch k
         end.
Proof.
  intros Hm Hd. rewrite (to_dict_flattened ch d k Hm Hd).
  case_decide; [done|]. destruct (d !! k); [done|]. by apply asdict_field.
Qed.

Lemma to_dict_merges_metadata_witness :
  to_dict (mkChunk (lit "x") 0 1 0 (VStr (lit "a.md")) VNone
             (Some {[ "chunk_index" := VInt 7 ]})) !! "chunk_index"
  = Some (VInt 7)
  ∧ to_dict (mkChunk (lit "x") 0 1 0 (VStr (lit "a.md")) VNone
               (Some {[ "chunk_index" := VInt 7 ]})) !! "end_char"
    = Some (VInt 1)
  ∧ to_dict (mkChunk (lit "x") 0 1 0 (VStr (lit "a.md")) VNone
               (Some {[ "chunk_index" := VInt 7 ]})) !! "metadata"
    = None.
Proof.
  split_and!.
  - by rewrite (to_dict_merges_metadata _ {[ "chunk_index" := VInt 7 ]}).
  - by rewrite (to_dict_merges_metadata _ {[ "chunk_index" := VInt 7 ]}).
  - by rewrite (to_dict_merges_metadata _ {[ "chunk_index" := VInt 7 ]}).
Defined.

Lemma carries_flattened doc ch :
  carries doc ch → content ch ≠ [] → flattened doc (to_dict ch).
Proof.
  intros (Hf & Ht & Hm) Hc. unfold flattened.
  destruct (metadata ch) as [d|] eqn:E.
  - destruct Hm as [Hd Hm].
    assert (Hfix : ∀ k, k ≠ "metadata" → remaining doc k = None →
                        to_dict ch !! k = field ch k).
    { intros k Hk Hr. rewrite (to_dict_flattened ch d k E Hd).
      case_decide; [done|]. rewrite Hm, Hr. by apply asdict_field. }
    split_and!.
    + rewrite Hfix by done. unfold field; simpl. by rewrite Hf.
    + rewrite Hfix by done. unfold field; simpl. by rewrite Ht.
    + exists (content ch). by rewrite Hfix by done.
    + intros k v Hr Hk. rewrite (to_dict_flattened ch d k E Hd).
      case_decide; [done|]. by rewrite Hm, Hr.
  - rewrite (to_dict_unflattened ch) by (by left). split_and!.
    + rewrite asdict_field by done. unfold field; simpl. by rewrite Hf.
    + rewrite asdict_field by done. unfold field; simpl. by rewrite Ht.
    + exists (content ch). by rewrite asdict_field by done.
    + intros k v Hr. by rewrite Hm in Hr.
Qed.

(** X11: when [process_documents] returns, [chunks_to_dicts] gives, for
    each document in turn, one dictionary per chunk made from that
    document, in the order of the chunks; each of them holds the file name
    of the document (or ["unknown"]), its title (or [None]), a text that is
    not empty as [content], and every other field of the document with the
    value it has there, unless it is named [metadata]; a field of the
    document named [start_char], [end_char] or [chunk_index] thus takes the
    place of the chunk's own. *)
Theorem flattened_document_chunks fuel documents chunk_size overlap chunks :
  process_documents fuel documents chunk_size overlap = Returned chunks →
  length (chunks_to_dicts chunks) = length chunks
  ∧ ∃ per_document,
      chunks_to_dicts chunks = concat per_document
      ∧ Forall2
          (λ doc ds,
             (∃ cs, document_chunks fuel doc chunk_size overlap = Returned cs
                    ∧ ds = to_dict <$> cs)
             ∧ Forall (flattened doc) ds)
          documents per_document.
Proof.
  intros H. split; [apply length_fmap|].
  apply process_loop_returned in H as (per & -> & Hall).
  exists (fmap (M:=list) (fmap (M:=list) to_dict) per). split.
  - unfold chunks_to_dicts. simpl. clear Hall.
    induction per as [|cs per IH]; simpl; [done|].
    by rewrite fmap_app, IH.
  - apply Forall2_fmap_r. eapply Forall2_impl; [exact Hall|]. simpl.
    intros doc cs Hdoc. split; [by exists cs|]. apply Forall_fmap.
    pose proof (document_chunks_carry _ _ _ _ _ Hdoc) as Hcarry.
    destruct (document_chunks_located _ _ _ _ _ Hdoc)
      as [_ [->|(text & _ & Hloc)]]; [constructor|].
    rewrite Forall_forall in Hcarry, Hloc. apply Forall_forall.
    intros ch Hch. apply carries_flattened; [by apply Hcarry|].
    by destruct (Hloc ch Hch) as (_ & _ & _ & _ & ?).
Qed.

(** Three documents, the second without [content]: four dictionaries with
    the file name of the first and one, made from the third, whose
    [chunk_index] is the 7 of the document. *)
Lemma flattened_document_chunks_witness :
  ∃ chunks per_document,
    process_documents 10 [tagged_document; empty_document; numbered_document]
      20 5 = Returned chunks
    ∧ length (chunks_to_dicts chunks) = 5%nat
    ∧ chunks_to_dicts chunks = concat per_document
    ∧ Forall2
        (λ doc ds,
           (∃ cs, document_chunks 10 doc 20 5 = Returned cs
                  ∧ ds = to_dict <$> cs)
           ∧ Forall (flattened doc) ds)
        [tagged_document; empty_document; numbered_document] per_document
    ∧ (λ d : gmap string value, d !! "filename") <$> chunks_to_dicts chunks
      = [Some (VStr (lit "a.md")); Some (VStr (lit "a.md"));
         Some (VStr (lit "a.md")); Some (VStr (lit "a.md"));
         Some (VStr (lit "unknown"))]
    ∧ (λ d : gmap string value, d !! "chunk_index") <$> chunks_to_dicts chunks
      = [Some (VInt 0); Some (VInt 1); Some (VInt 2); Some (VInt 3);
         Some (VInt 7)].
Proof.
  destruct (process_documents 10
              [tagged_document; empty_document; numbered_document] 20 5)
    as [chunks| |] eqn:E; [|by vm_compute in E..].
  destruct (flattened_document_chunks _ _ _ _ _ E)
    as (Hlen & per & Hc & Hall).
  exists chunks, per. split_and!; [done| |done|done| |];
    vm_compute in E; by injection E as <-.
Defined.

(** ** The address of the archive *)

Lemma split_nonempty sep text : split sep text ≠ [].
Proof.
  destruct text as [|c rest]; simpl; [done|].
  destruct (c =? sep)%N; [done|]. by destruct (split sep rest).
Qed.

(** There is one part more than there are separators. *)
Lemma split_single sep text :
  (length (split sep text) < 2)%nat ↔ sep ∉ text.
Proof.
  induction text as [|c rest IH]; simpl.
  - split; [intros _; apply not_elem_of_nil|lia].
  - destruct (N.eqb_spec c sep) as [->|Hne]; simpl.
    + pose proof (split_nonempty sep rest).
      destruct (split sep rest); [done|]. simpl.
      split; [lia|]. intros Hin. exfalso. apply Hin. left.
    + rewrite not_elem_of_cons.
      pose proof (split_nonempty sep rest).
      destruct (split sep rest) as [|part parts]; [done|].
      simpl in *. rewrite IH.
      split; [intros ?; split; [congruence|done]|by intros [_ ?]].
Qed.

Lemma split_part sep part rest :
  sep ∉ part →
  split sep (part ++ sep :: rest) = part :: split sep rest.
Proof.
  induction part as [|c part IH]; simpl; intros Hpart.
  - by rewrite N.eqb_refl.
  - apply not_elem_of_cons in Hpart as [Hc Hpart].
    destruct (N.eqb_spec c sep) as [->|_]; [done|]. by rewrite IH.
Qed.

Lemma split_last_part sep part : sep ∉ part → split sep part = [part].
Proof.
  induction part as [|c part IH]; simpl; intros Hpart; [done|].
  apply not_elem_of_cons in Hpart as [Hc Hpart].
  destruct (N.eqb_spec c sep) as [->|_]; [done|]. by rewrite IH.
Qed.

Lemma lstrip_char_lead ch lead text :
  Forall (λ c, c = ch) lead →
  lstrip_char ch (lead ++ text) = lstrip_char ch text.
Proof.
  induction 1 as [|c lead -> _ IH]; simpl; [done|]. by rewrite N.eqb_refl.
Qed.

Lemma lstrip_char_head ch text c :
  head text = Some c → c ≠ ch → lstrip_char ch text = text.
Proof.
  destruct text as [|c' rest]; simpl; [done|]. intros [= ->] Hc.
  by destruct (N.eqb_spec c ch).
Qed.

(** What is between the separators at both ends is what [strip] leaves. *)
Lemma strip_char_body ch lead body trail a z :
  Forall (λ c, c = ch) lead → Forall (λ c, c = ch) trail →
  head body = Some a → a ≠ ch → last body = Some z → z ≠ ch →
  strip_char ch (lead ++ body ++ trail) = body.
Proof.
  intros Hlead Htrail Ha Hane Hz Hzne. unfold strip_char.
  rewrite lstrip_char_lead by done.
  rewrite (lstrip_char_head ch (body ++ trail) a); [|by destruct body|done].
  rewrite reverse_app, lstrip_char_lead by (by apply Forall_reverse).
  rewrite (lstrip_char_head ch (reverse body) z);
    [apply reverse_involutive| |done].
  by rewrite head_reverse.
Qed.

(** X12: [read_repo_data] raises its [ValueError], before any download,
    exactly when the path of the address, without the slashes at its two
    ends, has no slash in it: that is, when it has fewer than two
    parts. *)
Theorem read_repo_data_url_raises path :
  read_repo_data_url path = Raised ValueError
  ↔ SLASH ∉ strip_char SLASH path.
Proof.
  unfold read_repo_data_url. rewrite <- split_single.
  destruct (Nat.ltb_spec (length (split SLASH (strip_char SLASH path))) 2);
    split; (done || lia).
Qed.

(** X13: for a path made of slashes, an owner, a slash, a repository name,
    possibly more parts after a slash, and slashes again, neither name
    holding a slash, [read_repo_data] requests
    [https://codeload.github.com/<owner>/<name>/zip/refs/heads/main]:
    the parts after the second one play no role. *)
Theorem read_repo_data_url_parts lead owner name more trail a z :
  Forall (λ c, c = SLASH) lead → Forall (λ c, c = SLASH) trail →
  SLASH ∉ owner → SLASH ∉ name →
  more = [] ∨ head more = Some SLASH →
  head (owner ++ SLASH :: name ++ more) = Some a → a ≠ SLASH →
  last (owner ++ SLASH :: name ++ more) = Some z → z ≠ SLASH →
  read_repo_data_url (lead ++ (owner ++ SLASH :: name ++ more) ++ trail)
  = Returned (codeload_url owner name).
Proof.
  intros Hlead Htrail Howner Hname Hmore Ha Hane Hz Hzne.
  unfold read_repo_data_url.
  rewrite (strip_char_body SLASH lead _ trail a z) by done.
  rewrite split_part by done.
  assert (Hsplit : ∃ parts, split SLASH (name ++ more) = name :: parts).
  { destruct Hmore as [->|Hmore].
    - rewrite app_nil_r, split_last_part by done. by eexists.
    - destruct more as [|c more]; [done|]. injection Hmore as ->.
      rewrite split_part by done. by eexists. }
  destruct Hsplit as [parts ->]. done.
Qed.

Lemma read_repo_data_url_parts_witness :
  read_repo_data_url (lit "/owner/repo/tree/main/")
  = Returned (lit "https://codeload.github.com/owner/repo/zip/refs/heads/main").
Proof.
  apply (read_repo_data_url_parts [SLASH] (lit "owner") (lit "repo")
           (lit "/tree/main") [SLASH] 111%N 110%N).
  - by repeat constructor.
  - by repeat constructor.
  - apply (bool_decide_unpack _). by vm_compute.
  - apply (bool_decide_unpack _). by vm_compute.
  - by right.
  - done.
  - done.
  - by vm_compute.
  - done.
Defined.

(** ** How much two windows share *)

Section shared.
Variables (text : str) (chunk_size overlap : Z).
Hypothesis Hvalid : valid_parameters chunk_size overlap.
Hypothesis Hadv : advances text chunk_size overlap.

Lemma advances_overlap_bounded n :
  overlap_bounded overlap (st_chunks (run n text chunk_size overlap initial))
  ∧ Forall (λ ch, raw_end_char ch - overlap
                  ≤ st_start (run n text chunk_size overlap initial))
      (st_chunks (run n text chunk_size overlap initial)).
Proof.
  induction n as [|n [IH1 IH2]].
  - split; [|constructor]. intros i j a b _ Ha. unfold initial in Ha.
    simpl in Ha. by rewrite lookup_nil in Ha.
  - rewrite run_succ. cbv zeta.
    destruct (Z.ltb_spec (st_start (run n text chunk_size overlap initial))
                (len text)) as [Hlt|Hge]; [|done].
    pose proof (Hadv n Hlt) as Hstep.
    set (st := run n text chunk_size overlap initial) in *.
    assert (Hold : Forall (λ ch, raw_end_char ch - overlap
                     ≤ st_start (loop_body text chunk_size overlap st))
                     (st_chunks st)).
    { eapply Forall_impl; [exact IH2|]. simpl. intros ch ?. lia. }
    destruct (loop_body_chunks text chunk_size overlap st) as [->|[E _]];
      [done|].
    rewrite E. split.
    + intros i j a b Hij Ha Hb.
      apply lookup_app_Some in Hb as [Hb|[Hge Hb]].
      * apply (IH1 i j a b Hij); [|done].
        apply lookup_lt_Some in Hb. by rewrite lookup_app_l in Ha by lia.
      * apply list_lookup_singleton_Some in Hb as [Hj <-]. simpl.
        rewrite lookup_app_l in Ha by lia.
        rewrite Forall_forall in IH2. apply IH2.
        apply list_elem_of_lookup. by exists i.
    + apply Forall_app. split; [done|]. constructor; [|constructor]. simpl.
      destruct (advances_covered text chunk_size overlap Hvalid Hadv n)
        as [Hs _]. fold st in Hs. destruct Hvalid as [Hc Ho].
      pose proof (window_end_bounds text chunk_size (st_start st)
                    ltac:(lia) Hlt).
      rewrite loop_body_start.
      destruct (Z.ltb_spec (window_end text chunk_size (st_start st))
                  (len text)); lia.
Qed.
End shared.

(** X14: under valid parameters, when the cursor moves forward at every
    pass, a window that a call returns shares at most [overlap] characters
    with any later one: the later one starts no more than [overlap]
    characters before the earlier one ends. *)
Theorem windows_share_at_most_overlap fuel text chunk_size overlap chunks :
  advances text chunk_size overlap →
  sliding_window_chunk fuel text chunk_size overlap = Returned chunks →
  overlap_bounded overlap chunks.
Proof.
  intros Hadv H. apply sliding_window_chunk_state in H as [Hv [n ->]].
  by apply advances_overlap_bounded.
Qed.

Lemma windows_share_at_most_overlap_witness :
  ∃ chunks,
    sliding_window_chunk 10 sample 20 5 = Returned chunks
    ∧ length chunks = 4%nat
    ∧ overlap_bounded 5 chunks.
Proof.
  destruct (sliding_window_chunk 10 sample 20 5) as [chunks| |] eqn:E;
    [|by vm_compute in E..].
  exists chunks. split_and!; [done| |].
  - vm_compute in E. by injection E as <-.
  - exact (windows_share_at_most_overlap 10 sample 20 5 chunks
             sample_advances E).
Defined.
